(** * Request-scoped transaction coordination: a model of the Go sources

    The development embeds these pieces of the repository:
    - [ParseOrderOption] and the order clause of [orderOption.Sql]
      (options.go, field.go), the order-clause parser and printer;
    - the transaction manager (package transaction): the manager registry
      [NewTransactionManager], handle acquisition [GetDb] and the
      coordinator [Transaction];
    - a small language of unit-of-work callbacks, so that statements can
      range over every callback business code is able to write;
    - the connection registry of db.go ([GetDBByDatabaseName], [GetDB],
      [InitDBConnect], [SetServiceDBConfig]), with [gorm.Open] as a
      parameter;
    - the condition builders and their flattening to a WHERE clause
      (field.go and the condition file), over an abstract type of values.

    Go strings are byte strings ([string] of 8-bit [ascii]); pointers to
    wrappers and managers are addresses into a list-shaped heap; panics are
    an explicit outcome. *)

From Stdlib Require Import ZArith Ascii String.
From stdpp Require Import base option list strings gmap.

Local Open Scope string_scope.
Local Open Scope list_scope.

(** ** Errors, panics and outcomes *)

(** The [error] values the modelled code builds or passes on. *)
Inductive error :=
  | ErrorsNew (msg : string)                      (* errors.New(msg) *)
  | FmtErrorfW (prefix : string) (inner : error)  (* fmt.Errorf(prefix + "%w", inner) *)
  | FmtErrorfV (prefix : string) (v : string)     (* fmt.Errorf(prefix + "%v", v) *)
  | Canceled                                      (* context.Canceled *)
  | DeadlineExceeded                              (* context.DeadlineExceeded *)
  | RuntimeError (msg : string).                  (* runtime.Error raised by the Go runtime *)

(** The argument of [panic]: an [error], or any other value (kept by its
    [%v] rendering).  [panic(nil)] is a [runtime.PanicNilError], an error. *)
Inductive panicval :=
  | PanicError (e : error)
  | PanicValue (v : string).

Inductive outcome (A : Type) :=
  | Ret (a : A)
  | Raise (r : panicval).
Arguments Ret {A} a.
Arguments Raise {A} r.

Definition sliceBounds : panicval :=
  PanicError (RuntimeError "slice bounds out of range").
Definition nilDereference : panicval :=
  PanicError (RuntimeError "invalid memory address or nil pointer dereference").

(** ** strings.ToLower, strings.HasSuffix and slicing *)

Definition lowerByte (c : ascii) : ascii :=
  let n := nat_of_ascii c in
  if Nat.leb 65 n && Nat.leb n 90 then ascii_of_nat (n + 32) else c.

(** [strings.ToLower] on a byte string: the ASCII letters [A-Z] are mapped
    to [a-z], every other byte is kept. *)
Fixpoint ToLower (s : string) : string :=
  match s with
  | EmptyString => EmptyString
  | String c r => String (lowerByte c) (ToLower r)
  end.

(** [strings.HasSuffix]:
    [len(s) >= len(suffix) && s[len(s)-len(suffix):] == suffix]. *)
Definition HasSuffix (s suffix : string) : bool :=
  Nat.leb (String.length suffix) (String.length s)
  && String.eqb
       (substring (String.length s - String.length suffix)
                  (String.length suffix) s)
       suffix.

(** The slice expression [s[:hi]]; it panics unless [0 <= hi <= len(s)]. *)
Definition sliceTo (s : string) (hi : Z) : outcome string :=
  if (hi <? 0)%Z || (Z.of_nat (String.length s) <? hi)%Z
  then Raise sliceBounds
  else Ret (substring 0 (Z.to_nat hi) s).

(** ** options.go: ParseOrderOption *)

Definition ORDER := Z.
Definition ASC : ORDER := 1%Z.
Definition DESC : ORDER := (-1)%Z.

Definition SimpleField := string.

Record orderOption := mkOrderOption { field : SimpleField; order : ORDER }.

Definition Asc (s : SimpleField) : orderOption := mkOrderOption s ASC.
Definition Desc (s : SimpleField) : orderOption := mkOrderOption s DESC.

Definition ParseOrderOption (str : string) : outcome orderOption :=
  let str := ToLower str in
  if HasSuffix str "desc" then
    match sliceTo str (Z.of_nat (String.length str) - 5) with
    | Ret f => Ret (Desc f)
    | Raise r => Raise r
    end
  else if HasSuffix str "asc" then
    match sliceTo str (Z.of_nat (String.length str) - 4) with
    | Ret f => Ret (Asc f)
    | Raise r => Raise r
    end
  else Ret (Asc str).

(** The strings made of ASCII bytes only.  On these [strings.ToLower] acts
    byte by byte, as [ToLower] above does; elsewhere it decodes UTF-8. *)
Fixpoint isASCII (s : string) : bool :=
  match s with
  | EmptyString => true
  | String c r => Nat.ltb (nat_of_ascii c) 128 && isASCII r
  end.

(** [ORDER.String()] (field.go): negative orders print as DESC. *)
Definition ORDER_String (o : ORDER) : string :=
  if (o <? 0)%Z then "DESC" else "ASC".

(** [orderOption.Sql]: the clause handed to gorm's [db.Order],
    [fmt.Sprintf("%s %s", oo.field, oo.order.String())], for a field that
    is a [SimpleField]. *)
Definition orderOption_Sql (oo : orderOption) : string :=
  (field oo ++ " " ++ ORDER_String (order oo))%string.

(** ** The connection layer and the state of a request *)

(** A [*gorm.DB]: a raw connection of the pool, or the handle [BeginTx]
    returns on [base]; [serial] numbers the begins of a run. *)
Inductive DB :=
  | RawConn (id : nat)
  | TxHandle (base : DB) (serial : nat).

(** Calls issued to the connection layer. *)
Inductive dbEvent :=
  | EvBegin (on tx : DB)
  | EvCommit (tx : DB)
  | EvRollback (tx : DB).

(** The external collaborator: [client.GetDB(database, serviceName)], and
    the [Error] field after [Commit()] and [Rollback()]. *)
Record connLayer := mkConnLayer {
  GetDB : string -> string -> option DB;
  CommitError : DB -> option error;
  RollbackError : DB -> option error
}.

Record dbWrapper := mkDbWrapper {
  db : option DB;
  inTransaction : bool;
  err : option error
}.

Definition emptyWrapper : dbWrapper := mkDbWrapper None false None.

Record state := mkState {
  heap : list dbWrapper;          (* the allocated *dbWrapper objects, by address *)
  events : list dbEvent;          (* calls to the connection layer, oldest first *)
  logs : list string;             (* messages handed to logger.Error *)
  canceled : list (nat * error)   (* cancellation tokens that fired, with their Err() *)
}.

(** ** context.Context *)

(** Keys of type [wrapContextStringKey] never equal keys of another type. *)
Inductive ctxKey :=
  | WrapKey (s : string)
  | PlainKey (s : string).

Inductive ctxVal :=
  | WrapperPtr (p : nat)
  | OtherVal (v : string).

Inductive context :=
  | Background
  | WithValue (parent : context) (k : ctxKey) (v : ctxVal)
  | WithCancel (parent : context) (tok : nat).

Global Instance ctxKey_eq_dec : EqDecision ctxKey.
Proof. solve_decision. Defined.

Fixpoint Value (ctx : context) (k : ctxKey) : option ctxVal :=
  match ctx with
  | Background => None
  | WithValue parent k' v => if decide (k' = k) then Some v else Value parent k
  | WithCancel parent _ => Value parent k
  end.

Fixpoint fired (tok : nat) (c : list (nat * error)) : option error :=
  match c with
  | [] => None
  | (t, e) :: r => if Nat.eqb t tok then Some e else fired tok r
  end.

(** [ctx.Err()]: the error of the nearest cancellation scope that fired. *)
Fixpoint Err (ctx : context) (c : list (nat * error)) : option error :=
  match ctx with
  | Background => None
  | WithValue parent _ _ => Err parent c
  | WithCancel parent tok =>
      match fired tok c with
      | Some e => Some e
      | None => Err parent c
      end
  end.

(** ** The monad of the modelled code: state, and panics as an outcome *)

Definition M (A : Type) : Type := state -> outcome A * state.

Definition ret {A} (a : A) : M A := fun s => (Ret a, s).
Definition raise {A} (r : panicval) : M A := fun s => (Raise r, s).
Definition bind {A B} (m : M A) (f : A -> M B) : M B :=
  fun s => match m s with
           | (Ret a, s') => f a s'
           | (Raise r, s') => (Raise r, s')
           end.

Notation "x <- m ;; k" := (bind m (fun x => k))
  (at level 100, m at next level, right associativity).
Notation "m ;;; k" := (bind m (fun _ => k))
  (at level 100, right associativity).

(** [defer d] around [m]: [d] runs when [m] returns and when it panics. *)
Definition deferring {A} (d : state -> state) (m : M A) : M A :=
  fun s => let '(o, s') := m s in (o, d s').

(** A deferred [recover()]: a panic of [m] is handed to [h]. *)
Definition recovering {A} (m : M A) (h : panicval -> M A) : M A :=
  fun s => match m s with
           | (Raise r, s') => h r s'
           | (Ret a, s') => (Ret a, s')
           end.

Definition modify (f : state -> state) : M unit := fun s => (Ret tt, f s).

Definition setHeap (h : list dbWrapper) (s : state) : state :=
  mkState h (events s) (logs s) (canceled s).
Definition emit (ev : dbEvent) (s : state) : state :=
  mkState (heap s) (events s ++ [ev]) (logs s) (canceled s).
Definition logged (msg : string) (s : state) : state :=
  mkState (heap s) (events s) (logs s ++ [msg]) (canceled s).
Definition cancelTok (tok : nat) (e : error) (s : state) : state :=
  mkState (heap s) (events s) (logs s) (canceled s ++ [(tok, e)]).

Definition logger_Error (msg : string) : M unit := modify (logged msg).

(** Reading through a wrapper pointer; an address outside the heap reads
    as a wrapper without fields. *)
Definition deref (s : state) (w : nat) : dbWrapper :=
  default emptyWrapper (heap s !! w).

Definition updWrapper (f : dbWrapper -> dbWrapper) (w : nat) (s : state) : state :=
  setHeap (alter f w (heap s)) s.

Definition withErr (e : option error) (wr : dbWrapper) : dbWrapper :=
  mkDbWrapper (db wr) (inTransaction wr) e.

(** [wrapper.reset()] *)
Definition reset (w : nat) : state -> state :=
  updWrapper (fun _ => emptyWrapper) w.

(** [db.BeginTx(ctx, &sql.TxOptions{})] *)
Definition BeginTx (d : DB) (s : state) : DB * state :=
  let tx := TxHandle d (length (events s)) in (tx, emit (EvBegin d tx) s).

(** [wrapper.db.Rollback().Error]; a nil [wrapper.db] is dereferenced. *)
Definition Rollback (E : connLayer) (w : nat) : M (option error) :=
  fun s => match db (deref s w) with
           | Some d => (Ret (RollbackError E d), emit (EvRollback d) s)
           | None => (Raise nilDereference, s)
           end.

(** [wrapper.db.Commit().Error] *)
Definition Commit (E : connLayer) (w : nat) : M (option error) :=
  fun s => match db (deref s w) with
           | Some d => (Ret (CommitError E d), emit (EvCommit d) s)
           | None => (Raise nilDereference, s)
           end.

(** ** The transaction manager *)

Record transactionManager := mkTransactionManager {
  serviceName : string;
  database : string;
  ctxDbWrapperKey : string
}.

(** An [interface{}] result: [None] is [nil]. *)
Definition value := option string.
Definition result : Type := value * option error.
Definition callback : Type := context -> M result.

Definition getDb (E : connLayer) (tm : transactionManager) : option DB :=
  GetDB E (database tm) (serviceName tm).

Definition getDbWrapper (tm : transactionManager) (ctx : context) : option nat :=
  match Value ctx (WrapKey (ctxDbWrapperKey tm)) with
  | Some (WrapperPtr p) => Some p
  | _ => None
  end.

Definition setDbWrapper (tm : transactionManager) (ctx : context) (w : nat) : context :=
  WithValue ctx (WrapKey (ctxDbWrapperKey tm)) (WrapperPtr w).

(** The handle the context carries for [tm]: [wrapper != nil && wrapper.db != nil]. *)
Definition ambient (tm : transactionManager) (ctx : context) (s : state)
  : option (nat * DB) :=
  match getDbWrapper tm ctx with
  | Some p => match db (deref s p) with
              | Some d => Some (p, d)
              | None => None
              end
  | None => None
  end.

Definition GetDb (E : connLayer) (tm : transactionManager) (ctx : context)
  : M (option DB) :=
  fun s => match ambient tm ctx s with
           | Some (_, d) => (Ret (Some d), s)
           | None => (Ret (getDb E tm), s)
           end.

(** How [Transaction] leaves its opening part: by an early [return], or
    on to the deferred recover with the (possibly derived) context, the
    wrapper and [txOpenByMe]. *)
Inductive entry :=
  | EarlyReturn (res : value) (e : option error)
  | Proceed (ctx : context) (wrapper : nat) (txOpenByMe : bool).

Definition enter (E : connLayer) (tm : transactionManager) (ctx : context)
  : state -> entry * state :=
  fun s =>
  match ambient tm ctx s with
  | None =>
      match getDb E tm with
      | Some d =>
          let '(tx, s1) := BeginTx d s in
          let w := length (heap s1) in
          (Proceed (setDbWrapper tm ctx w) w true,
           setHeap (heap s1 ++ [mkDbWrapper (Some tx) true None]) s1)
      | None =>
          (EarlyReturn None (Some (ErrorsNew "can not get db connection")), s)
      end
  | Some (w, d) =>
      match err (deref s w) with
      | Some e =>
          (EarlyReturn None (Some (FmtErrorfW "transaction already has error:" e)), s)
      | None =>
          if inTransaction (deref s w) then (Proceed ctx w false, s)
          else
            let '(tx, s1) := BeginTx d s in
            (Proceed ctx w true,
             updWrapper (fun wr => mkDbWrapper (Some tx) true (err wr)) w s1)
      end
  end.

(** [if e != nil { logger.Error(ctx, msg, ...) }] *)
Definition logIfError (e : option error) (msg : string) (s : state) : state :=
  match e with
  | Some _ => logged msg s
  | None => s
  end.

(** The error a recovered panic value becomes:
    [err0, isErr := r.(error); if !isErr { err0 = fmt.Errorf("recover:%v", r) }]. *)
Definition panicError (r : panicval) : error :=
  match r with
  | PanicError e => e
  | PanicValue v => FmtErrorfV "recover:" v
  end.

(** The deferred function of [Transaction], once [recover()] returned [r]. *)
Definition recovered (E : connLayer) (w : nat) (txOpenByMe : bool) (r : panicval)
  : M result :=
  let err0 := panicError r in
  logger_Error "panic in Transaction" ;;;
  modify (updWrapper (withErr (Some err0)) w) ;;;
  if negb txOpenByMe then ret (None, Some err0)
  else
    rberr <- Rollback E w ;;
    modify (logIfError rberr "rollback failed in recover") ;;;
    modify (reset w) ;;;
    ret (None, Some err0).

(** The owner's resolution, under [defer wrapper.reset()]. *)
Definition resolve (E : connLayer) (w : nat) (returnData : value)
  (bizErr : option error) : M result :=
  deferring (reset w)
    (match bizErr with
     | Some e =>
         rberr <- Rollback E w ;;
         modify (logIfError rberr "rollback failed") ;;;
         ret (returnData, Some e)
     | None =>
         fun s =>
         match err (deref s w) with
         | Some e =>
             (logger_Error "inner transaction has err, should rollback" ;;;
              rberr <- Rollback E w ;;
              modify (logIfError rberr "rollback for inner transaction failed") ;;;
              ret (returnData, Some e)) s
         | None =>
             (commitError <- Commit E w ;;
              modify (logIfError commitError "commit failed") ;;;
              ret (returnData, commitError)) s
         end
     end).

(** [if bizErr != nil { wrapper.err = bizErr; logger.Error(...) }] *)
Definition recordBizErr (w : nat) (bizErr : option error) (s : state) : state :=
  match bizErr with
  | Some e => logged "doTransaction err" (updWrapper (withErr (Some e)) w s)
  | None => s
  end.

(** From the first cancellation check to the last [return]. *)
Definition body (E : connLayer) (ctx : context) (w : nat) (txOpenByMe : bool)
  (doTransaction : callback) : M result :=
  fun s =>
  match Err ctx (canceled s) with
  | Some e => (Ret (None, Some e), s)
  | None =>
      (r <- doTransaction ctx ;;
       let '(returnData, bizErr) := r in
       modify (recordBizErr w bizErr) ;;;
       fun s2 =>
       match Err ctx (canceled s2) with
       | Some e => (Ret (None, Some e), s2)
       | None =>
           if txOpenByMe then resolve E w returnData bizErr s2
           else (Ret (returnData, bizErr), s2)
       end) s
  end.

Definition Transaction (E : connLayer) (tm : transactionManager) (ctx : context)
  (doTransaction : callback) : M result :=
  fun s =>
  match enter E tm ctx s with
  | (EarlyReturn res e, s1) => (Ret (res, e), s1)
  | (Proceed ctx' w txOpenByMe, s1) =>
      recovering (body E ctx' w txOpenByMe doTransaction)
                 (recovered E w txOpenByMe) s1
  end.

(** ** Unit-of-work callbacks

    What business code can do inside a callback: return, panic, run a
    nested [Transaction] or ask for a handle with [GetDb] (on the context
    it received or on any context it builds from it), and see contexts
    being cancelled while it runs.  The fields of a wrapper are out of its
    reach. *)
Inductive uow :=
  | UReturn (res : value) (e : option error)
  | UPanic (r : panicval)
  | UTransaction (tm : transactionManager) (c : context -> context)
                 (child : uow) (k : result -> uow)
  | UGetDb (tm : transactionManager) (c : context -> context)
           (k : option DB -> uow)
  | UCancel (tok : nat) (e : error) (k : uow).

Fixpoint run (E : connLayer) (u : uow) (ctx : context) : M result :=
  match u with
  | UReturn res e => ret (res, e)
  | UPanic r => raise r
  | UTransaction tm c child k =>
      r <- Transaction E tm (c ctx) (run E child) ;; run E (k r) ctx
  | UGetDb tm c k =>
      d <- GetDb E tm (c ctx) ;; run E (k d) ctx
  | UCancel tok e k =>
      modify (cancelTok tok e) ;;; run E k ctx
  end.


(** ** The manager registry *)

(** [tmMap] holds pointers: addresses into [managers], the managers built
    so far.  [mutex] tells whether the package mutex is held. *)
Record registry := mkRegistry {
  tmMap : gmap string nat;
  managers : list transactionManager;
  mutex : bool
}.

Definition mapKeyOf (serviceName database : string) : string :=
  (serviceName ++ ":" ++ database)%string.

(** [None]: the call blocks in [mutex.Lock()] for ever. *)
Definition NewTransactionManager (serviceName database : string) (r : registry)
  : option (nat * registry) :=
  let mapKey := mapKeyOf serviceName database in
  match tmMap r !! mapKey with
  | Some tm => Some (tm, r)
  | None =>
      if mutex r then None
      else
        let r1 := mkRegistry (tmMap r) (managers r) true in
        match tmMap r1 !! mapKey with
        | Some tm => Some (tm, mkRegistry (tmMap r1) (managers r1) false)
        | None =>
            let tm := length (managers r1) in
            let r2 := mkRegistry
                        (<[mapKey := tm]> (tmMap r1))
                        (managers r1 ++
                           [mkTransactionManager serviceName database
                              ("dbWrapper:" ++ mapKey)%string])
                        (mutex r1) in
            Some (tm, mkRegistry (tmMap r2) (managers r2) false)
        end
  end.

(** A sequence of calls, each on the registry the previous one left. *)
Fixpoint newManagers (calls : list (string * string)) (r : registry)
  : option registry :=
  match calls with
  | [] => Some r
  | (sn, dbn) :: rest =>
      match NewTransactionManager sn dbn r with
      | Some (_, r') => newManagers rest r'
      | None => None
      end
  end.

(** ** db.go: the connection registry of package repository *)

Module DbRegistry.

Record DBConfig := mkDBConfig {
  Dialect : string;
  Dsn : string;
  DriverName : string;
  Retry : Z;
  MaxIdle : Z;
  MaxOpen : Z;
  MaxLifetime : Z
}.

(** [DbConfig] is a [*DBConfig] and [Conn] a [*gorm.DB]: [None] is nil. *)
Record DBInfo := mkDBInfo {
  ServiceName : string;
  DbConfig : option DBConfig;
  Conn : option DB
}.

(** The external collaborator [gorm.Open]: the error, if any, of the
    [n]-th call of a run, by its arguments. *)
Record driver := mkDriver {
  OpenError : nat -> string -> string -> option error
}.

(** The package variables, and the calls made to [gorm.Open] so far
    (dialect and dsn, oldest first).  A connection is named after the call
    that opened it. *)
Record pkg := mkPkg {
  dbRegister : gmap string DBInfo;
  lock : bool;
  ServiceConfigMap : gmap string (option DBConfig);
  opens : list (string * string)
}.

Definition setLock (b : bool) (s : pkg) : pkg :=
  mkPkg (dbRegister s) b (ServiceConfigMap s) (opens s).

Definition register (mapKey : string) (dbInfo : DBInfo) (s : pkg) : pkg :=
  mkPkg (<[mapKey := dbInfo]> (dbRegister s)) (lock s) (ServiceConfigMap s)
        (opens s).

Definition dbKeyOf (database serviceName : string) : string :=
  (serviceName ++ "#" ++ database)%string.

(** [DBInfo.InitDBConnect]: the receiver with [Conn] set, or a panic. *)
Definition InitDBConnect (G : driver) (info : DBInfo) (s : pkg)
  : outcome DBInfo * pkg :=
  match DbConfig info with
  | None => (Raise nilDereference, s)
  | Some dbConf =>
      let n := length (opens s) in
      let s1 := mkPkg (dbRegister s) (lock s) (ServiceConfigMap s)
                      (opens s ++ [(Dialect dbConf, Dsn dbConf)]) in
      match OpenError G n (Dialect dbConf) (Dsn dbConf) with
      | Some e => (Raise (PanicError e), s1)
      | None =>
          (Ret (mkDBInfo (ServiceName info) (DbConfig info) (Some (RawConn n))),
           s1)
      end
  end.

(** [None]: the call blocks in [lock.Lock()] for ever.  The deferred
    [lock.Unlock()] runs on a return and on a panic. *)
Definition GetDBByDatabaseName (G : driver) (database serviceName : string)
  (s : pkg) : option (outcome (option DBInfo) * pkg) :=
  let mapKey := dbKeyOf database serviceName in
  match dbRegister s !! mapKey with
  | Some _ => Some (Ret (dbRegister s !! mapKey), s)
  | None =>
      if lock s then None
      else
        let s1 := setLock true s in
        match dbRegister s1 !! mapKey with
        | Some _ => Some (Ret (dbRegister s1 !! mapKey), setLock false s1)
        | None =>
            match ServiceConfigMap s1 !! serviceName with
            | None =>
                Some (Raise (PanicValue
                        "can not find service config, please set config first!!!"),
                      setLock false s1)
            | Some dbConf =>
                match InitDBConnect G (mkDBInfo serviceName dbConf None) s1 with
                | (Raise r, s2) => Some (Raise r, setLock false s2)
                | (Ret dbInfo, s2) =>
                    let s3 := register mapKey dbInfo s2 in
                    Some (Ret (dbRegister s3 !! mapKey), setLock false s3)
                end
            end
        end
  end.

(** [GetDB]: [dbInfo.Conn], a nil [dbInfo] being dereferenced. *)
Definition GetDB (G : driver) (database serviceName : string) (s : pkg)
  : option (outcome (option DB) * pkg) :=
  match GetDBByDatabaseName G database serviceName s with
  | None => None
  | Some (Raise r, s') => Some (Raise r, s')
  | Some (Ret None, s') => Some (Raise nilDereference, s')
  | Some (Ret (Some dbInfo), s') => Some (Ret (Conn dbInfo), s')
  end.

Definition SetServiceDBConfig (serviceName : string) (dbConf : option DBConfig)
  (s : pkg) : pkg :=
  mkPkg (dbRegister s) (lock s) (<[serviceName := dbConf]> (ServiceConfigMap s))
        (opens s).

(** The package as it is initialised. *)
Definition initial : pkg := mkPkg ∅ false ∅ [].

(** What client code does with the package, one call after the other; a
    panic of [GetDB] is taken to be recovered by the caller. *)
Inductive call :=
  | CallSet (serviceName : string) (dbConf : option DBConfig)
  | CallGet (database serviceName : string).

Fixpoint calls (G : driver) (cs : list call) (s : pkg) : option pkg :=
  match cs with
  | [] => Some s
  | CallSet serviceName dbConf :: rest =>
      calls G rest (SetServiceDBConfig serviceName dbConf s)
  | CallGet database serviceName :: rest =>
      match GetDB G database serviceName s with
      | Some (_, s') => calls G rest s'
      | None => None
      end
  end.

(** Every registered entry has a connection, opened by a call that
    succeeded, with the dialect and dsn of the configuration it records;
    no two entries share a connection, and the lock is free. *)
Definition sound (G : driver) (s : pkg) : Prop :=
  lock s = false /\
  (forall k info,
      dbRegister s !! k = Some info ->
      exists n dbConf,
        Conn info = Some (RawConn n) /\
        DbConfig info = Some dbConf /\
        opens s !! n = Some (Dialect dbConf, Dsn dbConf) /\
        OpenError G n (Dialect dbConf) (Dsn dbConf) = None) /\
  (forall k1 k2 info1 info2,
      dbRegister s !! k1 = Some info1 ->
      dbRegister s !! k2 = Some info2 ->
      Conn info1 = Conn info2 -> k1 = k2).

End DbRegistry.

(** ** field.go and the condition builders: WHERE clauses *)

Module Conditions.

Definition operator := string.

Definition c_Eq : operator := "=?".
Definition c_NotEq : operator := "<>?".
Definition c_IsNull : operator := "IS NULL".
Definition c_NotNull : operator := "IS NOT NULL".
Definition c_Empty : operator := "=''".
Definition c_Lt : operator := "<?".
Definition c_Lte : operator := "<=?".
Definition c_Gt : operator := ">?".
Definition c_Gte : operator := ">=?".
Definition c_In : operator := "IN (?)".
Definition c_NotIn : operator := "NOT IN (?)".
Definition c_ArrayMatchAny : operator := "&& (?)".
Definition c_Between : operator := "BETWEEN ? AND ?".
Definition c_Like : operator := "LIKE ?".
Definition c_ILike : operator := "ILIKE ?".
Definition c_StartsWith : operator := "LIKE ?".
Definition c_IStartsWith : operator := "ILIKE ?".
Definition c_Contains : operator := "LIKE ?".
Definition c_IContains : operator := "ILIKE ?".
Definition c_NotLike : operator := "NOT LIKE ?".
Definition c_NotILike : operator := "NOT ILIKE ?".
Definition c_Raw : operator := "RAW".

Definition ParamCount (op : operator) : Z :=
  if String.eqb op c_IsNull || String.eqb op c_NotNull
     || String.eqb op c_Empty || String.eqb op c_Raw then 0
  else if String.eqb op c_Between then 2
  else 1.

Definition logic := string.
Definition and : logic := "AND".
Definition or : logic := "OR".

(** A [FieldInterface] value, as far as conditions use it: what its
    [Column()] returns, or the panic it ends in. *)
Record FieldInterface := mkField { Column : outcome string }.

(** [SimpleField.Column] *)
Definition simple (s : SimpleField) : FieldInterface := mkField (Ret s).

(** [strings.Join] *)
Fixpoint Join (elems : list string) (sep : string) : string :=
  match elems with
  | [] => EmptyString
  | [x] => x
  | x :: rest => (x ++ sep ++ Join rest sep)%string
  end.

Section Values.

(** The values behind [interface{}]; [None] is the nil interface.
    [strVal] boxes a Go string; [IsArray] is the reflection test of
    field.go, [asArray] its conversion through the database driver. *)
Context {val : Type}.
Variable strVal : string -> val.
Variable IsArray : option val -> outcome bool.
Variable asArray : option val -> option val.

(** A [Condition]: the nil interface, or a pointer to one of the three
    structs.  The induction principle that fits the nesting in [list] is
    proved with the properties. *)
Local Unset Elimination Schemes.
Inductive Condition :=
  | Nil
  | singleCondition (field : FieldInterface) (op : operator)
                    (sqlArg1 sqlArg2 rawVal1 rawVal2 : option val)
  | compoundCondition (condition1 condition2 : Condition) (logic0 : logic)
  | conditionGroup (conditions : list Condition) (logic0 : logic).
Local Set Elimination Schemes.

(** The type assertion of [c] to a single condition. *)
Definition isSingle (c : Condition) : bool :=
  match c with
  | singleCondition _ _ _ _ _ _ => true
  | _ => false
  end.

(** The arguments a single condition contributes, by [ParamCount]. *)
Definition argsOf (op : operator) (sqlArg1 sqlArg2 : option val)
  : list (option val) :=
  if (ParamCount op =? 1)%Z then [sqlArg1]
  else if (ParamCount op =? 2)%Z then [sqlArg1; sqlArg2]
  else [].

(** The loop of [conditionGroup.flatten], over the flattening [fl] of
    one condition: the clauses kept and the arguments, in order. *)
Definition flattenEach
  (fl : Condition -> outcome (string * list (option val)))
  : list Condition -> outcome (list string * list (option val)) :=
  fix each (cs : list Condition) :=
    match cs with
    | [] => Ret ([], [])
    | c :: rest =>
        match fl c with
        | Raise r => Raise r
        | Ret (s, a) =>
            match each rest with
            | Raise r => Raise r
            | Ret (sqls, args) =>
                if String.eqb s "" then Ret (sqls, args)
                else Ret ((if isSingle c then s
                           else ("(" ++ s ++ ")")%string) :: sqls,
                          a ++ args)
            end
        end
    end.

Fixpoint flatten (c : Condition) : outcome (string * list (option val)) :=
  match c with
  | Nil => Raise nilDereference
  | singleCondition field op sqlArg1 sqlArg2 _ _ =>
      match Column field with
      | Raise r => Raise r
      | Ret col => Ret ((col ++ " " ++ op)%string, argsOf op sqlArg1 sqlArg2)
      end
  | compoundCondition condition1 condition2 logic0 =>
      match flatten condition1 with
      | Raise r => Raise r
      | Ret (sql1, args1) =>
          match flatten condition2 with
          | Raise r => Raise r
          | Ret (sql2, args2) =>
              if String.eqb sql1 "" then Ret (sql2, args2)
              else if String.eqb sql2 "" then Ret (sql1, args1)
              else Ret (("(" ++ sql1 ++ ")" ++ logic0 ++ "(" ++ sql2 ++ ")")%string,
                        args1 ++ args2)
          end
      end
  | conditionGroup conditions logic0 =>
      match flattenEach flatten conditions with
      | Raise r => Raise r
      | Ret (sqls, args) =>
          Ret (Join sqls (" " ++ logic0 ++ " ")%string, args)
      end
  end.

(** [And] and [Or], the same for the three structs; on the nil interface
    the method call panics. *)
Definition And (c condition : Condition) : outcome Condition :=
  match c with
  | Nil => Raise nilDereference
  | _ => Ret (compoundCondition c condition and)
  end.

Definition Or (c condition : Condition) : outcome Condition :=
  match c with
  | Nil => Raise nilDereference
  | _ => Ret (compoundCondition c condition or)
  end.

Definition MatchAll (conditions : list Condition) : Condition :=
  conditionGroup conditions and.

Definition MatchAny (conditions : list Condition) : Condition :=
  conditionGroup conditions or.

(** The builders of [SimpleField]. *)
Definition Eq (s : SimpleField) (v : option val) : Condition :=
  singleCondition (simple s) c_Eq v None v None.
Definition NotEq (s : SimpleField) (v : option val) : Condition :=
  singleCondition (simple s) c_NotEq v None v None.
Definition IsNull (s : SimpleField) : Condition :=
  singleCondition (simple s) c_IsNull None None None None.
Definition NotNull (s : SimpleField) : Condition :=
  singleCondition (simple s) c_NotNull None None None None.
Definition Empty (s : SimpleField) : Condition :=
  singleCondition (simple s) c_Empty None None None None.
Definition Lt (s : SimpleField) (v : option val) : Condition :=
  singleCondition (simple s) c_Lt v None v None.
Definition Lte (s : SimpleField) (v : option val) : Condition :=
  singleCondition (simple s) c_Lte v None v None.
Definition Gt (s : SimpleField) (v : option val) : Condition :=
  singleCondition (simple s) c_Gt v None v None.
Definition Gte (s : SimpleField) (v : option val) : Condition :=
  singleCondition (simple s) c_Gte v None v None.

Definition arrayCondition (name : string) (s : SimpleField) (op : operator)
  (sqlArg rawVal : option val) : outcome Condition :=
  match IsArray rawVal with
  | Raise r => Raise r
  | Ret false =>
      Raise (PanicValue ("param for " ++ name ++ " should be array or slice"))
  | Ret true => Ret (singleCondition (simple s) op sqlArg None rawVal None)
  end.

Definition In (s : SimpleField) (v : option val) : outcome Condition :=
  arrayCondition "In" s c_In v v.
Definition NotIn (s : SimpleField) (v : option val) : outcome Condition :=
  arrayCondition "NotIn" s c_NotIn v v.
Definition ArrayMatchAny (s : SimpleField) (v : option val)
  : outcome Condition :=
  arrayCondition "ArrayMatchAny" s c_ArrayMatchAny (asArray v) v.

Definition Between (s : SimpleField) (v1 v2 : option val) : Condition :=
  singleCondition (simple s) c_Between v1 v2 v1 v2.

Definition Like (s : SimpleField) (v : string) : Condition :=
  singleCondition (simple s) c_Like (Some (strVal v)) None
                  (Some (strVal v)) None.
Definition ILike (s : SimpleField) (v : string) : Condition :=
  singleCondition (simple s) c_ILike (Some (strVal v)) None
                  (Some (strVal v)) None.
Definition StartsWith (s : SimpleField) (v : string) : Condition :=
  singleCondition (simple s) c_StartsWith (Some (strVal (v ++ "%"))) None
                  (Some (strVal v)) None.
Definition IStartsWith (s : SimpleField) (v : string) : Condition :=
  singleCondition (simple s) c_IStartsWith (Some (strVal (v ++ "%"))) None
                  (Some (strVal v)) None.
Definition Contains (s : SimpleField) (v : string) : Condition :=
  singleCondition (simple s) c_Contains (Some (strVal ("%" ++ v ++ "%"))) None
                  (Some (strVal v)) None.
Definition IContains (s : SimpleField) (v : string) : Condition :=
  singleCondition (simple s) c_IContains (Some (strVal ("%" ++ v ++ "%"))) None
                  (Some (strVal v)) None.
Definition NotLike (s : SimpleField) (v : string) : Condition :=
  singleCondition (simple s) c_NotLike (Some (strVal v)) None
                  (Some (strVal v)) None.
Definition NotILike (s : SimpleField) (v : string) : Condition :=
  singleCondition (simple s) c_NotILike (Some (strVal v)) None
                  (Some (strVal v)) None.

(** Vocabulary of the statements: the placeholders of a clause, the
    arguments of the leaves of a condition from left to right, and the
    conditions made of the operators and connectives of the package, on
    columns without a placeholder. *)
Fixpoint placeholders (s : string) : nat :=
  match s with
  | EmptyString => 0
  | String c r => (if Ascii.eqb c "?" then 1 else 0) + placeholders r
  end.

Fixpoint leafArgs (c : Condition) : list (option val) :=
  match c with
  | Nil => []
  | singleCondition _ op sqlArg1 sqlArg2 _ _ => argsOf op sqlArg1 sqlArg2
  | compoundCondition c1 c2 _ => leafArgs c1 ++ leafArgs c2
  | conditionGroup cs _ => flat_map leafArgs cs
  end.

Definition operators : list operator :=
  [c_Eq; c_NotEq; c_IsNull; c_NotNull; c_Empty; c_Lt; c_Lte; c_Gt; c_Gte;
   c_In; c_NotIn; c_ArrayMatchAny; c_Between; c_Like; c_ILike; c_StartsWith;
   c_IStartsWith; c_Contains; c_IContains; c_NotLike; c_NotILike; c_Raw].

Definition connective (l : logic) : bool := String.eqb l and || String.eqb l or.

Fixpoint wellFormed (c : Condition) : bool :=
  match c with
  | Nil => false
  | singleCondition field op _ _ _ _ =>
      existsb (String.eqb op) operators
      && match Column field with
         | Ret col => Nat.eqb (placeholders col) 0
         | Raise _ => false
         end
  | compoundCondition c1 c2 l => wellFormed c1 && wellFormed c2 && connective l
  | conditionGroup cs l => forallb wellFormed cs && connective l
  end.

End Values.

End Conditions.

(** ** Vocabulary of the statements *)

(** The wrapper at [w] holds the open transaction [d]. *)
Definition holdsTx (s : state) (w : nat) (d : DB) : Prop :=
  db (deref s w) = Some d /\ inTransaction (deref s w) = true.

(** The three ways past the opening part: a new wrapper on a new
    transaction, a transaction begun in place on the handle of the
    wrapper found, or a join of the transaction found open. *)
Inductive entered (E : connLayer) (tm : transactionManager)
  (ctx : context) (s : state) : context -> nat -> bool -> state -> Prop :=
  | entered_new d :
      ambient tm ctx s = None ->
      getDb E tm = Some d ->
      entered E tm ctx s
        (setDbWrapper tm ctx (length (heap s))) (length (heap s)) true
        (mkState
           (heap s ++ [mkDbWrapper (Some (TxHandle d (length (events s)))) true None])
           (events s ++ [EvBegin d (TxHandle d (length (events s)))])
           (logs s) (canceled s))
  | entered_in_place w d :
      ambient tm ctx s = Some (w, d) ->
      err (deref s w) = None ->
      inTransaction (deref s w) = false ->
      entered E tm ctx s ctx w true
        (mkState
           (alter (fun wr => mkDbWrapper (Some (TxHandle d (length (events s))))
                               true (err wr)) w (heap s))
           (events s ++ [EvBegin d (TxHandle d (length (events s)))])
           (logs s) (canceled s))
  | entered_join w d :
      ambient tm ctx s = Some (w, d) ->
      err (deref s w) = None ->
      inTransaction (deref s w) = true ->
      entered E tm ctx s ctx w false s.

(** A state predicate kept by a computation, however it ends. *)
Definition preserves {A} (P : state -> Prop) (m : M A) : Prop :=
  forall s o s', m s = (o, s') -> P s -> P s'.

(** A callback that leaves every open transaction with its wrapper. *)
Definition keepsOpenTx (cb : callback) : Prop :=
  forall ctx w d, preserves (fun s => holdsTx s w d) (cb ctx).

(** The state in which the recover handler issues its rollback. *)
Definition panicNoted (w : nat) (r : panicval) (s : state) : state :=
  updWrapper (withErr (Some (panicError r))) w (logged "panic in Transaction" s).

(** One registry extends another: entries and managers are kept. *)
Definition extends (r r' : registry) : Prop :=
  (forall k p, tmMap r !! k = Some p -> tmMap r' !! k = Some p) /\
  (forall i tm, managers r !! i = Some tm -> managers r' !! i = Some tm).

(** The wrapper at address [w] is [wr]. *)
Definition wrapperAt (w : nat) (wr : dbWrapper) (s : state) : Prop :=
  heap s !! w = Some wr.

(** A wrapper as the code leaves it between two steps of a sequential
    run: reset, or holding a handle with its transaction open; and a state
    all of whose wrappers are so. *)
Definition emptyOrOpen (wr : dbWrapper) : Prop :=
  wr = emptyWrapper \/ (exists tx, db wr = Some tx /\ inTransaction wr = true).

Definition settled (s : state) : Prop :=
  forall w wr, heap s !! w = Some wr -> emptyOrOpen wr.

(** Units of work during which no context is cancelled. *)
Inductive nocancel : uow -> Prop :=
  | nocancel_return res e :
      nocancel (UReturn res e)
  | nocancel_panic r :
      nocancel (UPanic r)
  | nocancel_nested tm c child k :
      nocancel child ->
      (forall r, nocancel (k r)) ->
      nocancel (UTransaction tm c child k)
  | nocancel_getdb tm c k :
      (forall d, nocancel (k d)) ->
      nocancel (UGetDb tm c k).

(** Calls to the connection layer in which every begin is followed by one
    commit or one rollback of the transaction begun, nested transactions
    being resolved before the enclosing one. *)
Inductive balanced : list dbEvent -> Prop :=
  | balanced_nil :
      balanced []
  | balanced_app l1 l2 :
      balanced l1 -> balanced l2 -> balanced (l1 ++ l2)
  | balanced_commit d tx l :
      balanced l -> balanced (EvBegin d tx :: l ++ [EvCommit tx])
  | balanced_rollback d tx l :
      balanced l -> balanced (EvBegin d tx :: l ++ [EvRollback tx]).

Definition isBegin (ev : dbEvent) : bool :=
  match ev with EvBegin _ _ => true | _ => false end.
Definition isEnd (ev : dbEvent) : bool :=
  match ev with EvBegin _ _ => false | _ => true end.

(** A callback that, run while nothing is cancelled, cancels nothing and
    leaves no transaction of its own unresolved. *)
Definition tidy (cb : callback) : Prop :=
  forall ctx s o s',
    canceled s = [] -> cb ctx s = (o, s') ->
    canceled s' = [] /\
    exists evs, events s' = events s ++ evs /\ balanced evs.

(** Every entry of [tmMap] points to the manager built for its key. *)
Definition consistent (r : registry) : Prop :=
  forall k p,
    tmMap r !! k = Some p ->
    exists tm, managers r !! p = Some tm /\
               mapKeyOf (serviceName tm) (database tm) = k /\
               ctxDbWrapperKey tm = ("dbWrapper:" ++ k)%string.

(** Names without the separator of [mapKey]. *)
Fixpoint noColon (s : string) : bool :=
  match s with
  | EmptyString => true
  | String c r => negb (Ascii.eqb c ":") && noColon r
  end.

(** ** Concrete inputs for the examples *)

(** A pool that hands out connection 0; commits and rollbacks succeed. *)
Definition poolConn : connLayer :=
  mkConnLayer (fun _ _ => Some (RawConn 0)) (fun _ => None) (fun _ => None).

(** The same pool, with every rollback refused by the datastore. *)
Definition refusingConn : connLayer :=
  mkConnLayer (fun _ _ => Some (RawConn 0)) (fun _ => None)
              (fun _ => Some (ErrorsNew "rollback refused")).

(** No connection can be obtained. *)
Definition downConn : connLayer :=
  mkConnLayer (fun _ _ => None) (fun _ => None) (fun _ => None).

Definition ordersManager : transactionManager :=
  mkTransactionManager "orders" "primary" "dbWrapper:orders:primary".

Definition idle : state := mkState [] [] [] [].

Definition insufficientStock : error := ErrorsNew "insufficient stock".

(** The outer unit of work of the spec's scenario: the nested call fails
    with "insufficient stock", the outer callback drops that error and
    reports success. *)
Definition swallowsNested : uow :=
  UTransaction ordersManager id
    (UReturn None (Some insufficientStock))
    (fun _ => UReturn None None).

(** The same, with the request's context cancelled before the outer
    callback returns. *)
Definition swallowsThenCanceled : uow :=
  UTransaction ordersManager id
    (UReturn None (Some insufficientStock))
    (fun _ => UCancel 0 Canceled (UReturn None None)).

(** A callback that fails after its context was cancelled. *)
Definition failsAfterCancel : uow :=
  UCancel 0 Canceled (UReturn None (Some insufficientStock)).

(** A nested call that panics, below an outer callback that carries on. *)
Definition nestedPanic : uow :=
  UTransaction ordersManager id
    (UPanic (PanicValue "boom"))
    (fun _ => UReturn (Some "done") None).

(** Two levels of nested calls, all of them successful. *)
Definition threeLevels : uow :=
  UTransaction ordersManager id
    (UTransaction ordersManager id (UReturn (Some "leaf") None)
       (fun r => UReturn (fst r) None))
    (fun r => UGetDb ordersManager id (fun _ => UReturn (fst r) None)).

(** A request context with one cancellation scope, and a state in which
    that scope has fired. *)
Definition requestCtx : context := WithCancel Background 0.
Definition canceledState : state := mkState [] [] [] [(0, Canceled)].

(** A wrapper left with a sticky error and no handle, carried by a context. *)
Definition staleState : state :=
  mkState [mkDbWrapper None false (Some insufficientStock)] [] [] [].
Definition staleCtx : context := setDbWrapper ordersManager Background 0.

(** A wrapper holding the open transaction of an ancestor, carried by a
    context; with and without a sticky error. *)
Definition openTx : DB := TxHandle (RawConn 0) 0.
Definition joinedCtx : context := setDbWrapper ordersManager Background 0.
Definition joinedState : state :=
  mkState [mkDbWrapper (Some openTx) true None]
          [EvBegin (RawConn 0) openTx] [] [].
Definition doomedState : state :=
  mkState [mkDbWrapper (Some openTx) true (Some insufficientStock)]
          [EvBegin (RawConn 0) openTx] ["doTransaction err"] [].

Definition emptyRegistry : registry := mkRegistry ∅ [] false.

(** A service configuration, drivers that always and never connect, and
    the package after the service was configured. *)
Definition ordersConfig : DbRegistry.DBConfig :=
  DbRegistry.mkDBConfig "postgres" "host=db user=orders" "" 0 0 0 0.
Definition upDriver : DbRegistry.driver :=
  DbRegistry.mkDriver (fun _ _ _ => None).
Definition downDriver : DbRegistry.driver :=
  DbRegistry.mkDriver (fun _ _ _ => Some (ErrorsNew "connection refused")).
Definition configured : DbRegistry.pkg :=
  DbRegistry.SetServiceDBConfig "orders" (Some ordersConfig) DbRegistry.initial.

(** A condition over string values: open orders of a price range or
    without a coupon, for customers of a name pattern; one group is empty. *)
Definition openOrders : @Conditions.Condition string :=
  Conditions.MatchAll
    [Conditions.Eq "status" (Some "open");
     Conditions.MatchAny
       [Conditions.Between "total" (Some "10") (Some "20");
        Conditions.IsNull "coupon"];
     Conditions.MatchAll [];
     Conditions.StartsWith (fun v => v) "customer" "a"].

(** * Properties *)

(** ** ParseOrderOption *)

Section OrderOption.

Lemma substring_whole (s : string) : substring 0 (String.length s) s = s.
Proof. induction s as [|c s IH]; simpl; [reflexivity | now rewrite IH]. Qed.

Lemma HasSuffix_length (s suffix : string) :
  HasSuffix s suffix = true -> String.length suffix <= String.length s.
Proof.
  unfold HasSuffix. intros H. apply andb_prop in H as [H _].
  now apply Nat.leb_le in H.
Qed.

Lemma HasSuffix_same_length (s suffix : string) :
  HasSuffix s suffix = true ->
  String.length s = String.length suffix -> s = suffix.
Proof.
  unfold HasSuffix. intros H Hlen. apply andb_prop in H as [_ H].
  apply String.eqb_eq in H.
  rewrite Hlen, Nat.sub_diag, <- Hlen, substring_whole in H. exact H.
Qed.

Lemma sliceTo_in_range (s : string) (hi : Z) :
  (0 <= hi <= Z.of_nat (String.length s))%Z ->
  sliceTo s hi = Ret (substring 0 (Z.to_nat hi) s).
Proof.
  intros [H0 H1]. unfold sliceTo.
  destruct (Z.ltb_spec hi 0); [lia |].
  destruct (Z.ltb_spec (Z.of_nat (String.length s)) hi); [lia | reflexivity].
Qed.

Lemma sliceTo_negative (s : string) (hi : Z) :
  (hi < 0)%Z -> sliceTo s hi = Raise sliceBounds.
Proof.
  intros H. unfold sliceTo. destruct (Z.ltb_spec hi 0); [reflexivity | lia].
Qed.

(** The parser panics exactly on the inputs whose lower-case form is a
    bare order suffix. *)
Lemma ParseOrderOption_panic_iff (str : string) :
  ParseOrderOption str = Raise sliceBounds <->
  ToLower str = "asc" \/ ToLower str = "desc".
Proof.
  unfold ParseOrderOption. set (l := ToLower str).
  destruct (HasSuffix l "desc") eqn:Hd.
  - pose proof (HasSuffix_length _ _ Hd) as Hlen. simpl in Hlen.
    destruct (decide (String.length l = 4)) as [H4 | H4].
    + assert (l = "desc") as -> by (apply HasSuffix_same_length; auto).
      split; [right; reflexivity | reflexivity].
    + rewrite sliceTo_in_range by lia. split; [discriminate |].
      intros [H | H]; rewrite H in *; [discriminate Hd | simpl in H4; lia].
  - destruct (HasSuffix l "asc") eqn:Ha.
    + pose proof (HasSuffix_length _ _ Ha) as Hlen. simpl in Hlen.
      destruct (decide (String.length l = 3)) as [H3 | H3].
      * assert (l = "asc") as -> by (apply HasSuffix_same_length; auto).
        split; [left; reflexivity | reflexivity].
      * rewrite sliceTo_in_range by lia. split; [discriminate |].
        intros [H | H]; rewrite H in *; [simpl in H3; lia | discriminate Hd].
    + split; [discriminate |].
      intros [H | H]; rewrite H in *; [discriminate Ha | discriminate Hd].
Qed.

Lemma ParseOrderOption_returns (str : string) :
  ToLower str <> "asc" -> ToLower str <> "desc" ->
  exists o, ParseOrderOption str = Ret o.
Proof.
  intros Ha Hd.
  destruct (ParseOrderOption str) as [o | r] eqn:H; [eauto |].
  exfalso.
  assert (r = sliceBounds) as ->.
  { revert H. unfold ParseOrderOption, sliceTo.
    repeat match goal with
           | |- context [if ?b then _ else _] => destruct b
           end; congruence. }
  apply ParseOrderOption_panic_iff in H. tauto.
Qed.

End OrderOption.

(** C10. [ParseOrderOption] panics with a slice-bounds runtime error on
    the inputs "asc" and "desc" in any letter case, where the index
    [len(str)-4], resp. [len(str)-5], is negative; it returns an option
    exactly on the strings whose lower-case form is no bare order suffix. *)
Theorem ParseOrderOption_panics_on_bare_suffix :
  ParseOrderOption "asc" = Raise sliceBounds /\
  ParseOrderOption "desc" = Raise sliceBounds /\
  ParseOrderOption "ASC" = Raise sliceBounds /\
  ParseOrderOption "DeSc" = Raise sliceBounds /\
  sliceTo "asc" (Z.of_nat (String.length "asc") - 4) = Raise sliceBounds /\
  sliceTo "desc" (Z.of_nat (String.length "desc") - 5) = Raise sliceBounds /\
  (forall str,
      ParseOrderOption str = Raise sliceBounds <->
      ToLower str = "asc" \/ ToLower str = "desc") /\
  (forall str,
      (exists o, ParseOrderOption str = Ret o) <->
      ~ (ToLower str = "asc" \/ ToLower str = "desc")).
Proof.
  repeat split; try reflexivity.
  - apply ParseOrderOption_panic_iff.
  - apply ParseOrderOption_panic_iff.
  - intros [o Ho] H. apply ParseOrderOption_panic_iff in H. congruence.
  - intros H. apply ParseOrderOption_returns; tauto.
Qed.

(** ** Wrappers on the heap *)

Section Heap.

Implicit Types (s : state) (w p : nat) (wr : dbWrapper).

Lemma deref_lookup s w wr : heap s !! w = Some wr -> deref s w = wr.
Proof. unfold deref. now intros ->. Qed.

Lemma deref_db_lookup s w d :
  db (deref s w) = Some d -> heap s !! w = Some (deref s w).
Proof.
  unfold deref. destruct (heap s !! w); simpl; [reflexivity | discriminate].
Qed.

Lemma deref_updWrapper_same f s w wr :
  heap s !! w = Some wr -> deref (updWrapper f w s) w = f wr.
Proof.
  intros H. unfold deref, updWrapper. simpl.
  now rewrite list_lookup_alter_eq, H.
Qed.

Lemma deref_updWrapper_other f s w w' :
  w <> w' -> deref (updWrapper f w s) w' = deref s w'.
Proof.
  intros H. unfold deref, updWrapper. simpl.
  now rewrite list_lookup_alter_ne.
Qed.

Lemma deref_emit ev s w : deref (emit ev s) w = deref s w.
Proof. reflexivity. Qed.

Lemma deref_logged msg s w : deref (logged msg s) w = deref s w.
Proof. reflexivity. Qed.

Lemma deref_alloc s wr w :
  w < length (heap s) -> deref (setHeap (heap s ++ [wr]) s) w = deref s w.
Proof.
  intros H. unfold deref. simpl. now rewrite lookup_app_l.
Qed.

Lemma deref_alloc_new s wr :
  deref (setHeap (heap s ++ [wr]) s) (length (heap s)) = wr.
Proof.
  unfold deref. simpl.
  now rewrite lookup_app_r, Nat.sub_diag.
Qed.

Lemma deref_valid s w d : db (deref s w) = Some d -> w < length (heap s).
Proof.
  intros H. apply deref_db_lookup in H. now apply lookup_lt_Some in H.
Qed.

End Heap.

(** ** The opening part of [Transaction] *)


Section Enter.

Variable E : connLayer.
Variable tm : transactionManager.

Lemma ambient_Some ctx s w d :
  ambient tm ctx s = Some (w, d) <->
  getDbWrapper tm ctx = Some w /\ db (deref s w) = Some d.
Proof.
  unfold ambient. destruct (getDbWrapper tm ctx) as [p|].
  - destruct (db (deref s p)) eqn:H; split.
    + intros [= <- <-]. auto.
    + intros [[= <-] Hd]. congruence.
    + discriminate.
    + intros [[= <-] Hd]. congruence.
  - split; [discriminate | intros [? _]; discriminate].
Qed.

Lemma ambient_None ctx s :
  ambient tm ctx s = None <->
  getDbWrapper tm ctx = None \/
  exists p, getDbWrapper tm ctx = Some p /\ db (deref s p) = None.
Proof.
  unfold ambient. destruct (getDbWrapper tm ctx) as [p|].
  - destruct (db (deref s p)) eqn:H; split.
    + discriminate.
    + intros [? | (q & [= <-] & Hd)]; congruence.
    + intros _. right. eauto.
    + reflexivity.
  - split; auto.
Qed.

Lemma Err_setDbWrapper ctx w c : Err (setDbWrapper tm ctx w) c = Err ctx c.
Proof. reflexivity. Qed.

Lemma getDbWrapper_setDbWrapper ctx w :
  getDbWrapper tm (setDbWrapper tm ctx w) = Some w.
Proof.
  unfold getDbWrapper, setDbWrapper. simpl.
  now rewrite decide_True.
Qed.


Lemma enter_Proceed ctx s ctx' w own s1 :
  enter E tm ctx s = (Proceed ctx' w own, s1) <-> entered E tm ctx s ctx' w own s1.
Proof.
  unfold enter. split.
  - destruct (ambient tm ctx s) as [[p d]|] eqn:Ha.
    + destruct (err (deref s p)) eqn:He; [discriminate |].
      destruct (inTransaction (deref s p)) eqn:Hi;
        unfold BeginTx, updWrapper, setHeap, emit; simpl;
        intros [= <- <- <- <-].
      * eapply entered_join; eauto.
      * eapply entered_in_place; eauto.
    + destruct (getDb E tm) as [d|] eqn:Hd; [| discriminate].
      unfold BeginTx, setHeap, emit; simpl.
      intros [= <- <- <- <-]. now apply entered_new.
  - intros H. destruct H as [d Ha Hd | p d Ha He Hi | p d Ha He Hi].
    + now rewrite Ha, Hd.
    + now rewrite Ha, He, Hi.
    + now rewrite Ha, He, Hi.
Qed.

Lemma enter_no_connection ctx s :
  ambient tm ctx s = None -> getDb E tm = None ->
  enter E tm ctx s =
    (EarlyReturn None (Some (ErrorsNew "can not get db connection")), s).
Proof. intros Ha Hd. unfold enter. now rewrite Ha, Hd. Qed.

Lemma enter_sticky ctx s w d e :
  ambient tm ctx s = Some (w, d) -> err (deref s w) = Some e ->
  enter E tm ctx s =
    (EarlyReturn None (Some (FmtErrorfW "transaction already has error:" e)), s).
Proof. intros Ha He. unfold enter. now rewrite Ha, He. Qed.

(** What every way past the opening part establishes. *)
Lemma entered_holds ctx s ctx' w own s1 :
  entered E tm ctx s ctx' w own s1 ->
  (exists tx, holdsTx s1 w tx /\ err (deref s1 w) = None) /\
  getDbWrapper tm ctx' = Some w /\
  canceled s1 = canceled s /\ logs s1 = logs s /\
  (forall c, Err ctx' c = Err ctx c).
Proof.
  intros H. destruct H as [d Ha Hd | p d Ha He Hi | p d Ha He Hi].
  - split; [| split; [apply getDbWrapper_setDbWrapper | auto]].
    eexists. unfold holdsTx, deref. simpl.
    rewrite lookup_app_r, Nat.sub_diag by lia. simpl. eauto.
  - apply ambient_Some in Ha as [Hw Hdb].
    split; [| auto].
    pose proof (deref_db_lookup _ _ _ Hdb) as Hl.
    eexists. unfold holdsTx, deref. simpl.
    rewrite list_lookup_alter_eq, Hl. simpl. eauto.
  - apply ambient_Some in Ha as [Hw Hdb].
    split; [| auto]. exists d. unfold holdsTx. auto.
Qed.

Lemma entered_events ctx s ctx' w own s1 :
  entered E tm ctx s ctx' w own s1 ->
  if own
  then exists d, events s1 =
                   events s ++ [EvBegin d (TxHandle d (length (events s)))] /\
                 holdsTx s1 w (TxHandle d (length (events s)))
  else s1 = s.
Proof.
  intros H. destruct H as [d Ha Hd | p d Ha He Hi | p d Ha He Hi].
  - exists d. split; [reflexivity |]. unfold holdsTx, deref. simpl.
    rewrite lookup_app_r, Nat.sub_diag by lia. simpl. eauto.
  - exists d. split; [reflexivity |].
    apply ambient_Some in Ha as [Hw Hdb].
    pose proof (deref_db_lookup _ _ _ Hdb) as Hl.
    unfold holdsTx, deref. simpl.
    rewrite list_lookup_alter_eq, Hl. simpl. eauto.
  - reflexivity.
Qed.

(** Wrappers that hold an open transaction are left as they are, and a
    call only ever owns a wrapper that held none. *)
Lemma entered_frame ctx s ctx' w own s1 w0 d0 :
  entered E tm ctx s ctx' w own s1 ->
  holdsTx s w0 d0 ->
  holdsTx s1 w0 d0 /\ (own = true -> w <> w0).
Proof.
  intros H [Hdb Hin]. pose proof (deref_valid _ _ _ Hdb) as Hlt.
  destruct H as [d Ha Hd | p d Ha He Hi | p d Ha He Hi].
  - split; [| intros _; lia].
    unfold holdsTx, deref in *. simpl.
    now rewrite lookup_app_l by lia.
  - assert (p <> w0) by (intros ->; congruence).
    split; [| auto].
    unfold holdsTx, deref in *. simpl.
    now rewrite list_lookup_alter_ne.
  - split; [split; auto | discriminate].
Qed.

End Enter.

(** ** State predicates kept by monadic code *)


Section Preserves.

Context {A B : Type} (P : state -> Prop).

Lemma preserves_ret (a : A) : preserves P (ret a).
Proof. intros s o s' [= <- <-]. auto. Qed.

Lemma preserves_raise (r : panicval) : preserves P (@raise A r).
Proof. intros s o s' [= <- <-]. auto. Qed.

Lemma preserves_modify (f : state -> state) :
  (forall s, P s -> P (f s)) -> preserves P (modify f).
Proof. intros Hf s o s' [= <- <-]. auto. Qed.

Lemma preserves_bind (m : M A) (f : A -> M B) :
  preserves P m -> (forall a, preserves P (f a)) -> preserves P (bind m f).
Proof.
  intros Hm Hf s o s' H Hs. unfold bind in H.
  destruct (m s) as [[a | r] s1] eqn:Hms.
  - eapply Hf; eauto.
  - injection H as <- <-. eauto.
Qed.

Lemma preserves_deferring (d : state -> state) (m : M A) :
  preserves P m -> (forall s, P s -> P (d s)) -> preserves P (deferring d m).
Proof.
  intros Hm Hd s o s' H Hs. unfold deferring in H.
  destruct (m s) as [o1 s1] eqn:Hms. injection H as <- <-. eauto.
Qed.

Lemma preserves_recovering (m : M A) (h : panicval -> M A) :
  preserves P m -> (forall r, preserves P (h r)) ->
  preserves P (recovering m h).
Proof.
  intros Hm Hh s o s' H Hs. unfold recovering in H.
  destruct (m s) as [[a | r] s1] eqn:Hms.
  - injection H as <- <-. eauto.
  - eapply Hh; eauto.
Qed.

End Preserves.

(** ** The coordinator on an arbitrary callback *)

Section Coordinator.

Variable E : connLayer.

Implicit Types (s : state) (w : nat) (d tx : DB) (cb : callback).

Lemma holdsTx_same_heap s s' w d :
  heap s' = heap s -> holdsTx s w d -> holdsTx s' w d.
Proof. unfold holdsTx, deref. now intros ->. Qed.

Lemma holdsTx_withErr s w w0 d e :
  holdsTx s w0 d -> holdsTx (updWrapper (withErr e) w s) w0 d.
Proof.
  intros [Hd Hi]. unfold holdsTx.
  destruct (decide (w = w0)) as [-> | Hne].
  - rewrite (deref_updWrapper_same _ _ _ _ (deref_db_lookup _ _ _ Hd)).
    simpl. auto.
  - rewrite deref_updWrapper_other by assumption. auto.
Qed.

Lemma holdsTx_reset_other s w w0 d :
  w <> w0 -> holdsTx s w0 d -> holdsTx (reset w s) w0 d.
Proof.
  intros Hne [Hd Hi]. unfold holdsTx, reset.
  rewrite deref_updWrapper_other by assumption. auto.
Qed.

Lemma holdsTx_recordBizErr s w w0 d e :
  holdsTx s w0 d -> holdsTx (recordBizErr w e s) w0 d.
Proof.
  intros H. destruct e as [e|]; simpl; [| assumption].
  eapply holdsTx_same_heap; [| apply holdsTx_withErr; eassumption].
  reflexivity.
Qed.

Lemma holdsTx_logIfError s w0 d e msg :
  holdsTx s w0 d -> holdsTx (logIfError e msg s) w0 d.
Proof. destruct e; simpl; auto. Qed.

Lemma preserves_Rollback w w0 d :
  preserves (fun s => holdsTx s w0 d) (Rollback E w).
Proof.
  intros s o s' H Hs. unfold Rollback in H.
  destruct (db (deref s w)); injection H as <- <-; auto.
Qed.

Lemma preserves_Commit w w0 d :
  preserves (fun s => holdsTx s w0 d) (Commit E w).
Proof.
  intros s o s' H Hs. unfold Commit in H.
  destruct (db (deref s w)); injection H as <- <-; auto.
Qed.

Lemma preserves_recovered w own r w0 d :
  (own = true -> w <> w0) ->
  preserves (fun s => holdsTx s w0 d) (recovered E w own r).
Proof.
  intros Hne. unfold recovered, logger_Error.
  apply preserves_bind; [apply preserves_modify; auto |]. intros _.
  apply preserves_bind;
    [apply preserves_modify; intros; now apply holdsTx_withErr |]. intros _.
  destruct own; simpl; [| apply preserves_ret].
  apply preserves_bind; [apply preserves_Rollback |]. intros rberr.
  apply preserves_bind;
    [apply preserves_modify; intros; now apply holdsTx_logIfError |]. intros _.
  apply preserves_bind;
    [apply preserves_modify; intros; now apply holdsTx_reset_other; auto |].
  intros _. apply preserves_ret.
Qed.

Lemma preserves_resolve w rd be w0 d :
  w <> w0 -> preserves (fun s => holdsTx s w0 d) (resolve E w rd be).
Proof.
  intros Hne. unfold resolve, logger_Error.
  apply preserves_deferring;
    [| intros; now apply holdsTx_reset_other].
  destruct be as [e|].
  - apply preserves_bind; [apply preserves_Rollback |]. intros rberr.
    apply preserves_bind;
      [apply preserves_modify; intros; now apply holdsTx_logIfError |].
    intros _. apply preserves_ret.
  - intros s o s' H Hs. destruct (err (deref s w)) as [e|].
    + revert s o s' H Hs.
      apply preserves_bind; [apply preserves_modify; auto |]. intros _.
      apply preserves_bind; [apply preserves_Rollback |]. intros rberr.
      apply preserves_bind;
        [apply preserves_modify; intros; now apply holdsTx_logIfError |].
      intros _. apply preserves_ret.
    + revert s o s' H Hs.
      apply preserves_bind; [apply preserves_Commit |]. intros ce.
      apply preserves_bind;
        [apply preserves_modify; intros; now apply holdsTx_logIfError |].
      intros _. apply preserves_ret.
Qed.

Lemma preserves_body ctx w own cb w0 d :
  (own = true -> w <> w0) ->
  preserves (fun s => holdsTx s w0 d) (cb ctx) ->
  preserves (fun s => holdsTx s w0 d) (body E ctx w own cb).
Proof.
  intros Hne Hcb s o s' H Hs. unfold body in H.
  destruct (Err ctx (canceled s)); [injection H as <- <-; auto |].
  revert s o s' H Hs.
  apply preserves_bind; [assumption |]. intros [rd be].
  apply preserves_bind;
    [apply preserves_modify; intros; now apply holdsTx_recordBizErr |].
  intros _ s o s' H Hs.
  destruct (Err ctx (canceled s)); [injection H as <- <-; auto |].
  destruct own.
  - exact (preserves_resolve w rd be w0 d (Hne eq_refl) s o s' H Hs).
  - injection H as <- <-; auto.
Qed.


Lemma enter_EarlyReturn tm ctx s res e s1 :
  enter E tm ctx s = (EarlyReturn res e, s1) -> s1 = s.
Proof.
  unfold enter.
  destruct (ambient tm ctx s) as [[p d]|].
  - destruct (err (deref s p)); [now intros [= _ _ <-] |].
    destruct (inTransaction (deref s p)); discriminate.
  - destruct (getDb E tm); [discriminate | now intros [= _ _ <-]].
Qed.

Lemma Transaction_entered tm ctx cb s ctx' w own s1 :
  entered E tm ctx s ctx' w own s1 ->
  Transaction E tm ctx cb s =
    recovering (body E ctx' w own cb) (recovered E w own) s1.
Proof.
  intros H. apply enter_Proceed in H. unfold Transaction. now rewrite H.
Qed.

Lemma keepsOpenTx_Transaction tm cb :
  keepsOpenTx cb -> keepsOpenTx (fun ctx => Transaction E tm ctx cb).
Proof.
  intros Hcb ctx w0 d0 s o s' H Hs.
  destruct (enter E tm ctx s) as [[res e | ctx' w own] s1] eqn:He.
  - unfold Transaction in H. rewrite He in H. injection H as <- <-.
    apply enter_EarlyReturn in He as ->. assumption.
  - apply enter_Proceed in He.
    rewrite (Transaction_entered _ _ _ _ _ _ _ _ He) in H.
    destruct (entered_frame _ _ _ _ _ _ _ _ _ _ He Hs) as [Hs1 Hne].
    refine (preserves_recovering (fun s => holdsTx s w0 d0) _ _ _ _ s1 o s' H Hs1).
    + apply preserves_body; auto.
    + intros r. apply preserves_recovered; auto.
Qed.

Lemma keepsOpenTx_run (u : uow) : keepsOpenTx (run E u).
Proof.
  induction u as [res e | r | tm c child IHchild k IHk | tm c k IHk | tok e k IHk];
    intros ctx w d; simpl.
  - apply preserves_ret.
  - apply preserves_raise.
  - apply preserves_bind.
    + apply (keepsOpenTx_Transaction tm _ IHchild).
    + intros r. apply IHk.
  - apply preserves_bind.
    + intros s o s' H Hs. unfold GetDb in H.
      destruct (ambient tm (c ctx) s) as [[? ?]|]; injection H as <- <-; auto.
    + intros a. apply IHk.
  - apply preserves_bind.
    + apply preserves_modify. intros s Hs.
      eapply holdsTx_same_heap; [| eassumption]. reflexivity.
    + intros _. apply IHk.
Qed.

End Coordinator.

(** ** What one call does, case by case *)

Section Behaviour.

Variable E : connLayer.

Implicit Types (s : state) (w : nat) (d tx : DB) (cb : callback).

Lemma Rollback_open s w tx :
  holdsTx s w tx ->
  Rollback E w s = (Ret (RollbackError E tx), emit (EvRollback tx) s).
Proof. intros [Hd _]. unfold Rollback. now rewrite Hd. Qed.

Lemma Commit_open s w tx :
  holdsTx s w tx ->
  Commit E w s = (Ret (CommitError E tx), emit (EvCommit tx) s).
Proof. intros [Hd _]. unfold Commit. now rewrite Hd. Qed.

Lemma deref_reset s w tx : holdsTx s w tx -> deref (reset w s) w = emptyWrapper.
Proof.
  intros [Hd _]. unfold reset.
  now rewrite (deref_updWrapper_same _ _ _ _ (deref_db_lookup _ _ _ Hd)).
Qed.

Lemma resolve_business_error s w tx rd e :
  holdsTx s w tx ->
  resolve E w rd (Some e) s =
    (Ret (rd, Some e),
     reset w (logIfError (RollbackError E tx) "rollback failed"
                (emit (EvRollback tx) s))).
Proof.
  intros H. unfold resolve, deferring, bind.
  now rewrite (Rollback_open _ _ _ H).
Qed.

Lemma resolve_sticky_error s w tx rd e :
  holdsTx s w tx -> err (deref s w) = Some e ->
  resolve E w rd None s =
    (Ret (rd, Some e),
     reset w (logIfError (RollbackError E tx)
                "rollback for inner transaction failed"
                (emit (EvRollback tx)
                   (logged "inner transaction has err, should rollback" s)))).
Proof.
  intros H He. unfold resolve, deferring. rewrite He.
  unfold bind, logger_Error, modify.
  rewrite (Rollback_open (logged _ s) w tx); [reflexivity | exact H].
Qed.

Lemma resolve_commit s w tx rd :
  holdsTx s w tx -> err (deref s w) = None ->
  resolve E w rd None s =
    (Ret (rd, CommitError E tx),
     reset w (logIfError (CommitError E tx) "commit failed"
                (emit (EvCommit tx) s))).
Proof.
  intros H He. unfold resolve, deferring. rewrite He.
  unfold bind. now rewrite (Commit_open _ _ _ H).
Qed.


Lemma recovered_joined s w r :
  recovered E w false r s = (Ret (None, Some (panicError r)), panicNoted w r s).
Proof. reflexivity. Qed.

Lemma recovered_owner s w tx r :
  holdsTx s w tx ->
  recovered E w true r s =
    (Ret (None, Some (panicError r)),
     reset w (logIfError (RollbackError E tx) "rollback failed in recover"
                (emit (EvRollback tx) (panicNoted w r s)))).
Proof.
  intros H. unfold recovered, bind, logger_Error, modify. simpl.
  assert (holdsTx (panicNoted w r s) w tx) as H'.
  { apply holdsTx_withErr. eapply holdsTx_same_heap; [| exact H]. reflexivity. }
  unfold panicNoted in H'. now rewrite (Rollback_open _ _ _ H').
Qed.

Lemma panicNoted_err s w tx r :
  holdsTx s w tx -> err (deref (panicNoted w r s) w) = Some (panicError r).
Proof.
  intros [Hd _]. unfold panicNoted.
  rewrite (deref_updWrapper_same _ _ _ (deref s w)); [reflexivity |].
  exact (deref_db_lookup (logged _ s) w tx Hd).
Qed.

Lemma panicNoted_deref s w tx r :
  holdsTx s w tx ->
  deref (panicNoted w r s) w = withErr (Some (panicError r)) (deref s w).
Proof.
  intros [Hd _]. unfold panicNoted.
  rewrite (deref_updWrapper_same _ _ _ (deref s w)); [reflexivity |].
  exact (deref_db_lookup (logged _ s) w tx Hd).
Qed.

Lemma body_canceled ctx w own cb s e :
  Err ctx (canceled s) = Some e ->
  body E ctx w own cb s = (Ret (None, Some e), s).
Proof. intros H. unfold body. now rewrite H. Qed.

Lemma body_panics ctx w own cb s r s2 :
  Err ctx (canceled s) = None -> cb ctx s = (Raise r, s2) ->
  body E ctx w own cb s = (Raise r, s2).
Proof. intros H Hcb. unfold body, bind. now rewrite H, Hcb. Qed.

Lemma body_returns ctx w own cb s rd be s2 :
  Err ctx (canceled s) = None -> cb ctx s = (Ret (rd, be), s2) ->
  body E ctx w own cb s =
    match Err ctx (canceled s2) with
    | Some e => (Ret (None, Some e), recordBizErr w be s2)
    | None =>
        if own then resolve E w rd be (recordBizErr w be s2)
        else (Ret (rd, be), recordBizErr w be s2)
    end.
Proof.
  intros H Hcb. unfold body, bind, modify. rewrite H, Hcb.
  assert (canceled (recordBizErr w be s2) = canceled s2) as ->
      by (destruct be; reflexivity).
  reflexivity.
Qed.

Lemma events_recordBizErr w be s : events (recordBizErr w be s) = events s.
Proof. destruct be; reflexivity. Qed.

Lemma events_logIfError e msg s : events (logIfError e msg s) = events s.
Proof. destruct e; reflexivity. Qed.

Lemma err_recordBizErr_None s w : recordBizErr w None s = s.
Proof. reflexivity. Qed.

(** A call on a callback that leaves open transactions alone returns;
    no panic of the callback, and none of its own, gets past it. *)
Lemma Transaction_returns tm ctx cb s :
  keepsOpenTx cb ->
  exists res s', Transaction E tm ctx cb s = (Ret res, s').
Proof.
  intros Hcb.
  destruct (enter E tm ctx s) as [[res e | ctx' w own] s1] eqn:He.
  - unfold Transaction. rewrite He. eauto.
  - apply enter_Proceed in He.
    rewrite (Transaction_entered _ _ _ _ _ _ _ _ _ He).
    destruct (entered_holds _ _ _ _ _ _ _ _ He) as [(tx & Htx & _) _].
    unfold recovering.
    destruct (Err ctx' (canceled s1)) as [e|] eqn:Hc.
    { rewrite (body_canceled _ _ _ _ _ _ Hc). eauto. }
    destruct (cb ctx' s1) as [[[rd be] | r] s2] eqn:Hrun.
    + pose proof (Hcb ctx' w tx s1 _ _ Hrun Htx) as Htx2.
      rewrite (body_returns _ _ _ _ _ _ _ _ Hc Hrun).
      destruct (Err ctx' (canceled s2)); [eauto |].
      destruct own; [| eauto].
      pose proof (holdsTx_recordBizErr _ w _ _ be Htx2) as Htx3.
      destruct be as [e|].
      * rewrite (resolve_business_error _ _ _ _ _ Htx3). eauto.
      * destruct (err (deref (recordBizErr w None s2) w)) as [e|] eqn:Hs.
        -- rewrite (resolve_sticky_error _ _ _ _ _ Htx3 Hs). eauto.
        -- rewrite (resolve_commit _ _ _ _ Htx3 Hs). eauto.
    + pose proof (Hcb ctx' w tx s1 _ _ Hrun Htx) as Htx2.
      rewrite (body_panics _ _ _ _ _ _ _ Hc Hrun).
      destruct own.
      * rewrite (recovered_owner _ _ _ _ Htx2). eauto.
      * rewrite recovered_joined. eauto.
Qed.

End Behaviour.

(** * The claims *)

(** ** Cancellation before the callback *)

(** C1, as amended.  When the context is cancelled at the check that
    precedes the callback, the call returns the cancellation error with a
    nil result whatever the callback is, so the callback is not invoked,
    and no commit and no rollback is issued.  A begin has been issued
    before the check exactly when this call opened the transaction. *)
Theorem Transaction_canceled_before_callback
  (E : connLayer) (tm : transactionManager) (ctx : context) (cb : callback)
  (s : state) (ctx' : context) (w : nat) (own : bool) (s1 : state) (e : error) :
  enter E tm ctx s = (Proceed ctx' w own, s1) ->
  Err ctx' (canceled s1) = Some e ->
  Transaction E tm ctx cb s = (Ret (None, Some e), s1) /\
  (if own
   then exists d, events s1 =
                    events s ++ [EvBegin d (TxHandle d (length (events s)))]
   else s1 = s).
Proof.
  intros He Hc. apply enter_Proceed in He. split.
  - rewrite (Transaction_entered _ _ _ _ _ _ _ _ _ He). unfold recovering.
    now rewrite (body_canceled _ _ _ _ _ _ _ Hc).
  - pose proof (entered_events _ _ _ _ _ _ _ _ He) as H.
    destruct own; [| exact H]. destruct H as (d & H & _). eauto.
Qed.

Lemma Transaction_canceled_before_callback_witness :
  Transaction poolConn ordersManager requestCtx (run poolConn swallowsNested)
    canceledState
  = (Ret (None, Some Canceled),
     snd (enter poolConn ordersManager requestCtx canceledState)) /\
  (exists d,
      events (snd (enter poolConn ordersManager requestCtx canceledState)) =
      events canceledState ++
        [EvBegin d (TxHandle d (length (events canceledState)))]).
Proof.
  apply (Transaction_canceled_before_callback poolConn ordersManager requestCtx
           (run poolConn swallowsNested) canceledState
           (setDbWrapper ordersManager requestCtx 0) 0 true
           (snd (enter poolConn ordersManager requestCtx canceledState))
           Canceled); reflexivity.
Defined.

(** C1 as stated fails: on a context that is already cancelled and carries
    no wrapper, the call fails with the cancellation error, yet a begin was
    issued on the connection before the check. *)
Lemma canceled_call_still_begins :
  Err requestCtx (canceled canceledState) = Some Canceled /\
  fst (Transaction poolConn ordersManager requestCtx
         (run poolConn swallowsNested) canceledState)
  = Ret (None, Some Canceled) /\
  events canceledState = [] /\
  events (snd (Transaction poolConn ordersManager requestCtx
                 (run poolConn swallowsNested) canceledState))
  = [EvBegin (RawConn 0) (TxHandle (RawConn 0) 0)].
Proof. repeat split. Qed.

(** ** A sticky error found on entry *)

(** C4, as amended.  A call entered on a context whose wrapper holds a
    handle and a sticky error returns an error wrapping that sticky error,
    with a nil result, whatever the callback is; the state is unchanged, so
    no transaction is opened or touched. *)
Theorem Transaction_sticky_error_on_entry
  (E : connLayer) (tm : transactionManager) (ctx : context) (cb : callback)
  (s : state) (p : nat) (wr : dbWrapper) (d : DB) (e : error) :
  getDbWrapper tm ctx = Some p ->
  heap s !! p = Some wr ->
  db wr = Some d ->
  err wr = Some e ->
  Transaction E tm ctx cb s =
    (Ret (None, Some (FmtErrorfW "transaction already has error:" e)), s).
Proof.
  intros Hp Hl Hd He. unfold Transaction.
  rewrite (enter_sticky E tm ctx s p d e); [reflexivity | |].
  - apply ambient_Some. rewrite (deref_lookup _ _ _ Hl). auto.
  - now rewrite (deref_lookup _ _ _ Hl).
Qed.

Lemma Transaction_sticky_error_on_entry_witness :
  Transaction poolConn ordersManager joinedCtx (run poolConn swallowsNested)
    doomedState
  = (Ret (None,
          Some (FmtErrorfW "transaction already has error:" insufficientStock)),
     doomedState).
Proof.
  apply (Transaction_sticky_error_on_entry poolConn ordersManager joinedCtx
           (run poolConn swallowsNested) doomedState 0
           (mkDbWrapper (Some openTx) true (Some insufficientStock))
           openTx insufficientStock); reflexivity.
Defined.

(** C4 as stated fails: a wrapper that carries a sticky error but no
    handle is treated as absent; the call opens a transaction, invokes the
    callback and commits. *)
Lemma sticky_error_without_handle_runs_callback :
  getDbWrapper ordersManager staleCtx = Some 0 /\
  err (deref staleState 0) = Some insufficientStock /\
  Transaction poolConn ordersManager staleCtx
    (run poolConn (UReturn (Some "done") None)) staleState
  = (Ret (Some "done", None),
     mkState [mkDbWrapper None false (Some insufficientStock); emptyWrapper]
             [EvBegin (RawConn 0) (TxHandle (RawConn 0) 0);
              EvCommit (TxHandle (RawConn 0) 0)]
             [] []).
Proof. repeat split. Qed.

(** ** Handle acquisition and the missing connection *)

(** C7.  [GetDb] returns the handle of the wrapper the context carries for
    this manager when that handle is present, and otherwise what the
    connection source yields; in both cases the state is the one it was
    called in: no begin is issued and no wrapper is written. *)
Theorem GetDb_ambient_handle_or_connection
  (E : connLayer) (tm : transactionManager) (ctx : context) (s : state) :
  (forall p wr d,
      getDbWrapper tm ctx = Some p -> heap s !! p = Some wr -> db wr = Some d ->
      GetDb E tm ctx s = (Ret (Some d), s)) /\
  (getDbWrapper tm ctx = None -> GetDb E tm ctx s = (Ret (getDb E tm), s)) /\
  (forall p wr,
      getDbWrapper tm ctx = Some p -> heap s !! p = Some wr -> db wr = None ->
      GetDb E tm ctx s = (Ret (getDb E tm), s)).
Proof.
  unfold GetDb. repeat split.
  - intros p wr d Hp Hl Hd.
    assert (ambient tm ctx s = Some (p, d)) as ->; [| reflexivity].
    apply ambient_Some. rewrite (deref_lookup _ _ _ Hl). auto.
  - intros Hp.
    assert (ambient tm ctx s = None) as ->; [| reflexivity].
    apply ambient_None. auto.
  - intros p wr Hp Hl Hd.
    assert (ambient tm ctx s = None) as ->; [| reflexivity].
    apply ambient_None. right. exists p. rewrite (deref_lookup _ _ _ Hl). auto.
Qed.

Lemma GetDb_ambient_handle_or_connection_witness :
  GetDb poolConn ordersManager joinedCtx joinedState
  = (Ret (Some openTx), joinedState) /\
  GetDb poolConn ordersManager Background joinedState
  = (Ret (Some (RawConn 0)), joinedState) /\
  GetDb poolConn ordersManager staleCtx staleState
  = (Ret (Some (RawConn 0)), staleState).
Proof.
  split; [| split].
  - apply (proj1 (GetDb_ambient_handle_or_connection
                    poolConn ordersManager joinedCtx joinedState)
             0 (mkDbWrapper (Some openTx) true None) openTx); reflexivity.
  - apply (proj1 (proj2 (GetDb_ambient_handle_or_connection
                           poolConn ordersManager Background joinedState)));
      reflexivity.
  - apply (proj2 (proj2 (GetDb_ambient_handle_or_connection
                           poolConn ordersManager staleCtx staleState))
             0 (mkDbWrapper None false (Some insufficientStock))); reflexivity.
Defined.

(** C8.  A call entered without a wrapper, or with a wrapper that holds no
    handle, when the connection source yields no connection: it returns
    the error "can not get db connection" with a nil result whatever the
    callback is, and leaves the state as it was, so no wrapper is created. *)
Theorem Transaction_no_connection
  (E : connLayer) (tm : transactionManager) (ctx : context) (cb : callback)
  (s : state) :
  getDbWrapper tm ctx = None \/
  (exists p wr, getDbWrapper tm ctx = Some p /\ heap s !! p = Some wr /\
                db wr = None) ->
  getDb E tm = None ->
  Transaction E tm ctx cb s =
    (Ret (None, Some (ErrorsNew "can not get db connection")), s).
Proof.
  intros Hw Hd. unfold Transaction.
  rewrite (enter_no_connection E tm ctx s); [reflexivity | | exact Hd].
  apply ambient_None. destruct Hw as [Hw | (p & wr & Hp & Hl & Hn)]; [auto |].
  right. exists p. rewrite (deref_lookup _ _ _ Hl). auto.
Qed.

Lemma Transaction_no_connection_witness :
  Transaction downConn ordersManager Background (run downConn swallowsNested)
    idle
  = (Ret (None, Some (ErrorsNew "can not get db connection")), idle).
Proof.
  apply (Transaction_no_connection downConn ordersManager Background
           (run downConn swallowsNested) idle);
    [left; reflexivity | reflexivity].
Defined.

(** ** Resolution by the owner *)

Section Owner.

Variable E : connLayer.

(** After the opening part, the callback of a well-behaved unit of work
    leaves the owner's wrapper holding its transaction. *)
Lemma owner_holds_after_callback tm ctx s ctx' w own s1 u o s2 :
  enter E tm ctx s = (Proceed ctx' w own, s1) ->
  run E u ctx' s1 = (o, s2) ->
  exists tx, holdsTx s1 w tx /\ holdsTx s2 w tx.
Proof.
  intros He Hrun. apply enter_Proceed in He.
  destruct (entered_holds _ _ _ _ _ _ _ _ He) as [(tx & Htx & _) _].
  exists tx. split; [exact Htx |].
  exact (keepsOpenTx_run E u ctx' w tx s1 o s2 Hrun Htx).
Qed.

End Owner.

(** C2, as amended.  An owning call whose callback returns no error while
    the wrapper carries a sticky error, on a context that is not cancelled
    when the callback returns: the owner issues one rollback of its
    transaction, returns the callback's result with the sticky error as
    the error, and leaves the wrapper empty. *)
Theorem Transaction_owner_rolls_back_on_sticky_error
  (E : connLayer) (tm : transactionManager) (ctx : context) (u : uow)
  (s : state) (ctx' : context) (w : nat) (s1 : state)
  (rd : value) (s2 : state) (e : error) :
  enter E tm ctx s = (Proceed ctx' w true, s1) ->
  Err ctx' (canceled s1) = None ->
  run E u ctx' s1 = (Ret (rd, None), s2) ->
  err (deref s2 w) = Some e ->
  Err ctx' (canceled s2) = None ->
  exists tx s3,
    holdsTx s1 w tx /\
    Transaction E tm ctx (run E u) s = (Ret (rd, Some e), s3) /\
    events s3 = events s2 ++ [EvRollback tx] /\
    deref s3 w = emptyWrapper.
Proof.
  intros He Hc1 Hrun Hs Hc2.
  destruct (owner_holds_after_callback _ _ _ _ _ _ _ _ _ _ _ He Hrun)
    as (tx & Htx1 & Htx2).
  apply enter_Proceed in He.
  exists tx. eexists. split; [exact Htx1 |].
  rewrite (Transaction_entered _ _ _ _ _ _ _ _ _ He). unfold recovering.
  rewrite (body_returns _ _ _ _ _ _ _ _ _ Hc1 Hrun), Hc2. simpl.
  rewrite (resolve_sticky_error _ _ _ _ _ _ Htx2 Hs).
  split; [reflexivity |]. split.
  - unfold reset, updWrapper. simpl. now rewrite events_logIfError.
  - apply (deref_reset _ _ tx). apply holdsTx_logIfError.
    eapply holdsTx_same_heap; [| exact Htx2]. reflexivity.
Qed.

Lemma Transaction_owner_rolls_back_on_sticky_error_witness :
  exists tx s3,
    holdsTx (snd (enter poolConn ordersManager Background idle)) 0 tx /\
    Transaction poolConn ordersManager Background (run poolConn swallowsNested)
      idle
    = (Ret (None, Some insufficientStock), s3) /\
    events s3 =
      events (snd (run poolConn swallowsNested
                     (setDbWrapper ordersManager Background 0)
                     (snd (enter poolConn ordersManager Background idle))))
      ++ [EvRollback tx] /\
    deref s3 0 = emptyWrapper.
Proof.
  apply (Transaction_owner_rolls_back_on_sticky_error poolConn ordersManager
           Background swallowsNested idle
           (setDbWrapper ordersManager Background 0) 0
           (snd (enter poolConn ordersManager Background idle))
           None
           (snd (run poolConn swallowsNested
                   (setDbWrapper ordersManager Background 0)
                   (snd (enter poolConn ordersManager Background idle))))
           insufficientStock); reflexivity.
Defined.

(** C2 as stated fails: when the context is cancelled by the time the
    callback returns, the owner neither rolls back nor returns the sticky
    error; it returns the cancellation error. *)
Lemma sticky_error_lost_to_cancellation :
  enter poolConn ordersManager requestCtx idle
  = (Proceed (setDbWrapper ordersManager requestCtx 0) 0 true,
     snd (enter poolConn ordersManager requestCtx idle)) /\
  fst (run poolConn swallowsThenCanceled
         (setDbWrapper ordersManager requestCtx 0)
         (snd (enter poolConn ordersManager requestCtx idle)))
  = Ret (None, None) /\
  err (deref (snd (run poolConn swallowsThenCanceled
                     (setDbWrapper ordersManager requestCtx 0)
                     (snd (enter poolConn ordersManager requestCtx idle)))) 0)
  = Some insufficientStock /\
  fst (Transaction poolConn ordersManager requestCtx
         (run poolConn swallowsThenCanceled) idle)
  = Ret (None, Some Canceled) /\
  events (snd (Transaction poolConn ordersManager requestCtx
                 (run poolConn swallowsThenCanceled) idle))
  = [EvBegin (RawConn 0) (TxHandle (RawConn 0) 0)].
Proof. repeat split. Qed.

(** C6, as amended.  An owning call whose callback returns a business
    error, on a context that is not cancelled when the callback returns:
    the owner issues one rollback of its transaction and returns the
    callback's result with the business error, also when the rollback
    fails; the failure of the rollback is logged.  The wrapper is left
    empty. *)
Theorem Transaction_owner_rolls_back_on_business_error
  (E : connLayer) (tm : transactionManager) (ctx : context) (u : uow)
  (s : state) (ctx' : context) (w : nat) (s1 : state)
  (rd : value) (e : error) (s2 : state) :
  enter E tm ctx s = (Proceed ctx' w true, s1) ->
  Err ctx' (canceled s1) = None ->
  run E u ctx' s1 = (Ret (rd, Some e), s2) ->
  Err ctx' (canceled s2) = None ->
  exists tx s3,
    holdsTx s1 w tx /\
    Transaction E tm ctx (run E u) s = (Ret (rd, Some e), s3) /\
    events s3 = events s2 ++ [EvRollback tx] /\
    logs s3 = logs s2 ++ "doTransaction err" ::
                match RollbackError E tx with
                | Some _ => ["rollback failed"]
                | None => []
                end /\
    deref s3 w = emptyWrapper.
Proof.
  intros He Hc1 Hrun Hc2.
  destruct (owner_holds_after_callback _ _ _ _ _ _ _ _ _ _ _ He Hrun)
    as (tx & Htx1 & Htx2).
  apply enter_Proceed in He.
  exists tx. eexists. split; [exact Htx1 |].
  rewrite (Transaction_entered _ _ _ _ _ _ _ _ _ He). unfold recovering.
  rewrite (body_returns _ _ _ _ _ _ _ _ _ Hc1 Hrun), Hc2.
  pose proof (holdsTx_recordBizErr _ w _ _ (Some e) Htx2) as Htx3.
  rewrite (resolve_business_error _ _ _ _ _ _ Htx3).
  split; [reflexivity |]. split; [| split].
  - unfold reset, updWrapper. simpl. now rewrite events_logIfError.
  - unfold reset, updWrapper. simpl.
    destruct (RollbackError E tx); simpl; [| reflexivity].
    now rewrite <- app_assoc.
  - apply (deref_reset _ _ tx). apply holdsTx_logIfError.
    eapply holdsTx_same_heap; [| exact Htx3]. reflexivity.
Qed.

Lemma Transaction_owner_rolls_back_on_business_error_witness :
  exists tx s3,
    holdsTx (snd (enter refusingConn ordersManager Background idle)) 0 tx /\
    Transaction refusingConn ordersManager Background
      (run refusingConn (UReturn (Some "partial") (Some insufficientStock)))
      idle
    = (Ret (Some "partial", Some insufficientStock), s3) /\
    events s3 =
      events (snd (enter refusingConn ordersManager Background idle))
      ++ [EvRollback tx] /\
    logs s3 =
      logs (snd (enter refusingConn ordersManager Background idle))
      ++ "doTransaction err" ::
         match RollbackError refusingConn tx with
         | Some _ => ["rollback failed"]
         | None => []
         end /\
    deref s3 0 = emptyWrapper.
Proof.
  apply (Transaction_owner_rolls_back_on_business_error refusingConn
           ordersManager Background
           (UReturn (Some "partial") (Some insufficientStock)) idle
           (setDbWrapper ordersManager Background 0) 0
           (snd (enter refusingConn ordersManager Background idle))
           (Some "partial") insufficientStock
           (snd (enter refusingConn ordersManager Background idle)));
    reflexivity.
Defined.

(** C6 as stated fails: when the context is cancelled by the time the
    callback returns its business error, the owner issues no rollback and
    returns the cancellation error in place of the business error. *)
Lemma business_error_lost_to_cancellation :
  enter poolConn ordersManager requestCtx idle
  = (Proceed (setDbWrapper ordersManager requestCtx 0) 0 true,
     snd (enter poolConn ordersManager requestCtx idle)) /\
  fst (run poolConn failsAfterCancel
         (setDbWrapper ordersManager requestCtx 0)
         (snd (enter poolConn ordersManager requestCtx idle)))
  = Ret (None, Some insufficientStock) /\
  fst (Transaction poolConn ordersManager requestCtx
         (run poolConn failsAfterCancel) idle)
  = Ret (None, Some Canceled) /\
  events (snd (Transaction poolConn ordersManager requestCtx
                 (run poolConn failsAfterCancel) idle))
  = [EvBegin (RawConn 0) (TxHandle (RawConn 0) 0)].
Proof. repeat split. Qed.

(** ** Panics of the callback *)

(** C3.  No panic gets past [Transaction]: a call on a unit of work always
    returns.  When the callback panics, the call returns the panic value
    converted to an error, with a nil result, and logs the panic.  A
    non-owning call leaves the wrapper with its handle, its transaction
    open and that error in the [err] field, and issues nothing to the
    connection.  An owning call issues one rollback of its transaction,
    logs the rollback's failure if it fails, and leaves the wrapper empty.
    The owner records the error before it rolls back: on a wrapper that has
    lost its handle (a state no unit of work brings about, by the first two
    parts) the rollback dereferences nil, and that panic leaves the call
    with the error recorded in the wrapper and the wrapper not reset. *)
Theorem Transaction_recovers_panics
  (E : connLayer) (tm : transactionManager) (ctx : context) (u : uow)
  (s : state) :
  (exists res s', Transaction E tm ctx (run E u) s = (Ret res, s')) /\
  (forall ctx' w own s1 r s2,
      enter E tm ctx s = (Proceed ctx' w own, s1) ->
      Err ctx' (canceled s1) = None ->
      run E u ctx' s1 = (Raise r, s2) ->
      exists tx s3,
        holdsTx s1 w tx /\
        Transaction E tm ctx (run E u) s = (Ret (None, Some (panicError r)), s3) /\
        if own
        then events s3 = events s2 ++ [EvRollback tx] /\
             deref s3 w = emptyWrapper /\
             logs s3 =
               logs s2 ++
               "panic in Transaction" ::
               match RollbackError E tx with
               | Some _ => ["rollback failed in recover"]
               | None => []
               end
        else events s3 = events s2 /\
             deref s3 w = mkDbWrapper (Some tx) true (Some (panicError r)) /\
             logs s3 = logs s2 ++ ["panic in Transaction"]) /\
  (forall (cb : callback) ctx' w s1 r s2 wr,
      enter E tm ctx s = (Proceed ctx' w true, s1) ->
      Err ctx' (canceled s1) = None ->
      cb ctx' s1 = (Raise r, s2) ->
      heap s2 !! w = Some wr ->
      db wr = None ->
      exists s3,
        Transaction E tm ctx cb s = (Raise nilDereference, s3) /\
        heap s3 !! w =
          Some (mkDbWrapper None (inTransaction wr) (Some (panicError r))) /\
        events s3 = events s2).
Proof.
  split; [apply Transaction_returns, keepsOpenTx_run |]. split.
  - intros ctx' w own s1 r s2 He Hc Hrun.
    destruct (owner_holds_after_callback _ _ _ _ _ _ _ _ _ _ _ He Hrun)
      as (tx & Htx1 & Htx2).
    apply enter_Proceed in He.
    rewrite (Transaction_entered _ _ _ _ _ _ _ _ _ He). unfold recovering.
    rewrite (body_panics _ _ _ _ _ _ _ _ Hc Hrun).
    exists tx. destruct own; eexists; (split; [exact Htx1 |]).
    + rewrite (recovered_owner _ _ _ _ _ Htx2). split; [reflexivity |].
      assert (holdsTx (panicNoted w r s2) w tx) as Hn.
      { apply holdsTx_withErr. eapply holdsTx_same_heap; [| exact Htx2].
        reflexivity. }
      split; [| split].
      * unfold reset, updWrapper. simpl. now rewrite events_logIfError.
      * apply (deref_reset _ _ tx). apply holdsTx_logIfError.
        eapply holdsTx_same_heap; [| exact Hn]. reflexivity.
      * unfold reset, updWrapper. simpl.
        destruct (RollbackError E tx); simpl; [| reflexivity].
        now rewrite <- app_assoc.
    + rewrite recovered_joined. split; [reflexivity |].
      split; [reflexivity |]. split; [| reflexivity].
      rewrite (panicNoted_deref _ _ tx _ Htx2).
      destruct Htx2 as [Hd Hi]. unfold withErr. now rewrite Hd, Hi.
  - intros cb ctx' w s1 r s2 wr He Hc Hrun Hw Hdb.
    apply enter_Proceed in He.
    rewrite (Transaction_entered _ _ _ _ _ _ _ _ _ He). unfold recovering.
    rewrite (body_panics _ _ _ _ _ _ _ _ Hc Hrun).
    assert (heap (logged "panic in Transaction" s2) !! w = Some wr) as Hw'
        by exact Hw.
    unfold recovered, bind, logger_Error, modify, Rollback. simpl.
    rewrite (deref_updWrapper_same _ _ _ _ Hw'). simpl. rewrite Hdb.
    eexists. split; [reflexivity |]. split; [| reflexivity].
    unfold updWrapper. simpl. rewrite list_lookup_alter_eq, Hw. simpl.
    unfold withErr. now rewrite Hdb.
Qed.

(** The three parts at work: a joining call and an owning call on a
    callback that panics, and an owning call on a callback of the model
    that panics after emptying the wrapper, which the fields being
    unexported keeps business code from doing. *)
Lemma Transaction_recovers_panics_witness :
  (exists tx s3,
      holdsTx joinedState 0 tx /\
      Transaction poolConn ordersManager joinedCtx
        (run poolConn (UPanic (PanicValue "boom"))) joinedState
      = (Ret (None, Some (FmtErrorfV "recover:" "boom")), s3) /\
      events s3 = events joinedState /\
      deref s3 0 =
        mkDbWrapper (Some tx) true (Some (FmtErrorfV "recover:" "boom")) /\
      logs s3 = logs joinedState ++ ["panic in Transaction"]) /\
  (exists tx s3,
      holdsTx (snd (enter refusingConn ordersManager Background idle)) 0 tx /\
      Transaction refusingConn ordersManager Background
        (run refusingConn (UPanic (PanicValue "boom"))) idle
      = (Ret (None, Some (panicError (PanicValue "boom"))), s3) /\
      events s3 =
        events (snd (run refusingConn (UPanic (PanicValue "boom"))
                       (setDbWrapper ordersManager Background 0)
                       (snd (enter refusingConn ordersManager Background idle))))
        ++ [EvRollback tx] /\
      deref s3 0 = emptyWrapper /\
      logs s3 =
        logs (snd (run refusingConn (UPanic (PanicValue "boom"))
                     (setDbWrapper ordersManager Background 0)
                     (snd (enter refusingConn ordersManager Background idle))))
        ++ "panic in Transaction" ::
           match RollbackError refusingConn tx with
           | Some _ => ["rollback failed in recover"]
           | None => []
           end) /\
  (exists s3,
      Transaction poolConn ordersManager Background
        (fun _ s => (Raise (PanicValue "boom"), reset 0 s)) idle
      = (Raise nilDereference, s3) /\
      heap s3 !! 0 =
        Some (mkDbWrapper None (inTransaction emptyWrapper)
                (Some (panicError (PanicValue "boom")))) /\
      events s3 =
        events (reset 0 (snd (enter poolConn ordersManager Background idle)))).
Proof.
  split; [| split].
  - apply (proj1 (proj2 (Transaction_recovers_panics poolConn ordersManager
                           joinedCtx (UPanic (PanicValue "boom")) joinedState))
             joinedCtx 0 false joinedState (PanicValue "boom") joinedState);
      reflexivity.
  - pose proof (proj1 (proj2 (Transaction_recovers_panics refusingConn
                                ordersManager Background
                                (UPanic (PanicValue "boom")) idle))
                  (setDbWrapper ordersManager Background 0) 0 true
                  (snd (enter refusingConn ordersManager Background idle))
                  (PanicValue "boom")
                  (snd (run refusingConn (UPanic (PanicValue "boom"))
                          (setDbWrapper ordersManager Background 0)
                          (snd (enter refusingConn ordersManager Background
                                  idle))))
                  eq_refl eq_refl eq_refl) as H.
    exact H.
  - apply (proj2 (proj2 (Transaction_recovers_panics poolConn ordersManager
                           Background (UReturn None None) idle))
             (fun _ s => (Raise (PanicValue "boom"), reset 0 s))
             (setDbWrapper ordersManager Background 0) 0
             (snd (enter poolConn ordersManager Background idle))
             (PanicValue "boom")
             (reset 0 (snd (enter poolConn ordersManager Background idle)))
             emptyWrapper);
      reflexivity.
Defined.

(** ** Successful call trees *)

Section Successful.

Variable E : connLayer.
Variable tm : transactionManager.


End Successful.




(** ** The manager registry *)

Section Registry.

Implicit Types (r : registry) (p : nat).


Lemma extends_refl r : extends r r.
Proof. split; auto. Qed.

Lemma extends_trans r1 r2 r3 : extends r1 r2 -> extends r2 r3 -> extends r1 r3.
Proof. intros [A1 B1] [A2 B2]. split; auto. Qed.

Lemma NewTransactionManager_hit sn dbn r p :
  tmMap r !! mapKeyOf sn dbn = Some p ->
  NewTransactionManager sn dbn r = Some (p, r).
Proof. intros H. unfold NewTransactionManager. now rewrite H. Qed.

Lemma NewTransactionManager_miss sn dbn r :
  tmMap r !! mapKeyOf sn dbn = None -> mutex r = false ->
  NewTransactionManager sn dbn r =
    Some (length (managers r),
          mkRegistry (<[mapKeyOf sn dbn := length (managers r)]> (tmMap r))
                     (managers r ++
                        [mkTransactionManager sn dbn
                           ("dbWrapper:" ++ mapKeyOf sn dbn)%string])
                     false).
Proof.
  intros H Hm. unfold NewTransactionManager. simpl. now rewrite H, Hm.
Qed.

(** With the mutex free a call returns, leaves the mutex free, keeps
    what the registry held and has its key registered to the pointer
    it returns. *)
Lemma NewTransactionManager_spec sn dbn r :
  mutex r = false ->
  exists p r',
    NewTransactionManager sn dbn r = Some (p, r') /\
    mutex r' = false /\ extends r r' /\
    tmMap r' !! mapKeyOf sn dbn = Some p.
Proof.
  intros Hm. destruct (tmMap r !! mapKeyOf sn dbn) as [p|] eqn:Hk.
  - exists p, r. rewrite (NewTransactionManager_hit _ _ _ _ Hk).
    auto using extends_refl.
  - eexists _, _. rewrite (NewTransactionManager_miss _ _ _ Hk Hm).
    split; [reflexivity |]. split; [reflexivity |]. split; [split |]; simpl.
    + intros k p Hkp. rewrite lookup_insert_ne; [exact Hkp | congruence].
    + intros i tm Hi. now apply lookup_app_l_Some.
    + apply lookup_insert_eq.
Qed.

Lemma newManagers_spec calls :
  forall r, mutex r = false ->
            exists r', newManagers calls r = Some r' /\
                       mutex r' = false /\ extends r r'.
Proof.
  induction calls as [| [sn dbn] rest IH]; intros r Hm; simpl.
  - exists r. auto using extends_refl.
  - destruct (NewTransactionManager_spec sn dbn r Hm)
      as (p & r1 & -> & Hm1 & Hext & _).
    destruct (IH r1 Hm1) as (r2 & -> & Hm2 & Hext2).
    exists r2. eauto using extends_trans.
Qed.

End Registry.



(** * Further properties *)

(** ** The order parser on well-formed clauses *)

Section OrderClauses.

Local Open Scope string_scope.

Lemma lowerByte_idem (c : ascii) : lowerByte (lowerByte c) = lowerByte c.
Proof.
  destruct c as [[] [] [] [] [] [] [] []]; reflexivity.
Qed.

Lemma ToLower_idem (s : string) : ToLower (ToLower s) = ToLower s.
Proof.
  induction s as [|c s IH]; simpl; [reflexivity |].
  now rewrite lowerByte_idem, IH.
Qed.

Lemma ToLower_app (a b : string) : ToLower (a ++ b) = ToLower a ++ ToLower b.
Proof. induction a as [|c a IH]; simpl; [reflexivity | now rewrite IH]. Qed.

Lemma length_ToLower (s : string) : String.length (ToLower s) = String.length s.
Proof. induction s as [|c s IH]; simpl; [reflexivity | now rewrite IH]. Qed.

Lemma length_append (a b : string) :
  String.length (a ++ b) = String.length a + String.length b.
Proof. induction a as [|c a IH]; simpl; [reflexivity | now rewrite IH]. Qed.

Lemma substring_app_prefix (a b : string) :
  substring 0 (String.length a) (a ++ b) = a.
Proof.
  induction a as [|c a IH]; simpl.
  - destruct b; reflexivity.
  - now rewrite IH.
Qed.

Lemma substring_app_suffix (a b : string) :
  substring (String.length a) (String.length b) (a ++ b) = b.
Proof.
  induction a as [|c a IH]; simpl; [apply substring_whole | exact IH].
Qed.

Lemma ToLower_substring (n : nat) (s : string) :
  ToLower (substring 0 n s) = substring 0 n (ToLower s).
Proof.
  revert s. induction n as [|n IH]; intros [|c s]; simpl; try reflexivity.
  now rewrite IH.
Qed.

(** A string that ends in as many bytes as the suffix has: the test
    compares exactly those bytes. *)
Lemma HasSuffix_app (a t suffix : string) :
  String.length t = String.length suffix ->
  HasSuffix (a ++ t) suffix = String.eqb t suffix.
Proof.
  intros Hlen. unfold HasSuffix. rewrite length_append, <- Hlen.
  replace (String.length a + String.length t - String.length t)
    with (String.length a) by lia.
  rewrite substring_app_suffix.
  destruct (Nat.leb_spec (String.length t) (String.length a + String.length t));
    [reflexivity | lia].
Qed.

Lemma append_assoc (a b c : string) : (a ++ b) ++ c = a ++ (b ++ c).
Proof.
  induction a as [|x a IH]; [reflexivity |].
  change (String x ((a ++ b) ++ c) = String x (a ++ (b ++ c))).
  now rewrite IH.
Qed.

(** The clause [f sep DESC] and [f sep ASC], in any letter case and with
    any one byte as the separator. *)
Lemma ParseOrderOption_desc (f t : string) (sep : ascii) :
  ToLower t = "desc" ->
  ParseOrderOption (f ++ String sep t) = Ret (Desc (ToLower f)).
Proof.
  intros Ht. unfold ParseOrderOption.
  rewrite ToLower_app. simpl ToLower. rewrite Ht.
  set (l := ToLower f).
  change (l ++ String (lowerByte sep) "desc")
    with (l ++ (String (lowerByte sep) "" ++ "desc")).
  rewrite <- append_assoc.
  rewrite (HasSuffix_app (l ++ String (lowerByte sep) "") "desc" "desc")
    by reflexivity.
  simpl String.eqb. rewrite append_assoc.
  rewrite sliceTo_in_range.
  - rewrite length_append. simpl String.length.
    replace (Z.to_nat (Z.of_nat (String.length l + 5) - 5))
      with (String.length l) by lia.
    now rewrite substring_app_prefix.
  - rewrite length_append. simpl String.length. lia.
Qed.

Lemma ParseOrderOption_asc (f t : string) (sep : ascii) :
  ToLower t = "asc" ->
  ParseOrderOption (f ++ String sep t) = Ret (Asc (ToLower f)).
Proof.
  intros Ht. unfold ParseOrderOption.
  rewrite ToLower_app. simpl ToLower. rewrite Ht.
  set (l := ToLower f).
  rewrite (HasSuffix_app l (String (lowerByte sep) "asc") "desc") by reflexivity.
  assert (String.eqb (String (lowerByte sep) "asc") "desc" = false) as ->.
  { simpl. now destruct (Ascii.eqb (lowerByte sep) "d"). }
  change (l ++ String (lowerByte sep) "asc")
    with (l ++ (String (lowerByte sep) "" ++ "asc")).
  rewrite <- append_assoc.
  rewrite (HasSuffix_app (l ++ String (lowerByte sep) "") "asc" "asc")
    by reflexivity.
  simpl String.eqb. rewrite append_assoc.
  rewrite sliceTo_in_range.
  - rewrite length_append. simpl String.length.
    replace (Z.to_nat (Z.of_nat (String.length l + 4) - 4))
      with (String.length l) by lia.
    now rewrite substring_app_prefix.
  - rewrite length_append. simpl String.length. lia.
Qed.

End OrderClauses.

(** X1.  Whatever [ParseOrderOption] returns on an ASCII string is
    normalised: the field is in lower case, it is the lower-cased input cut
    at some length, and the order is [ASC] or [DESC]. *)
Theorem ParseOrderOption_result_normalised (str : string) (o : orderOption) :
  isASCII str = true ->
  ParseOrderOption str = Ret o ->
  ToLower (field o) = field o /\
  (exists n, field o = substring 0 n (ToLower str)) /\
  (order o = ASC \/ order o = DESC).
Proof.
  unfold ParseOrderOption, sliceTo. intros _ H.
  assert (forall n, ToLower (substring 0 n (ToLower str))
                    = substring 0 n (ToLower str)) as Hsub.
  { intros n. now rewrite ToLower_substring, ToLower_idem. }
  repeat match type of H with
         | context [if ?b then _ else _] => destruct b
         end; try discriminate; injection H as <-; simpl.
  - split; [apply Hsub |]. split; [eauto | right; reflexivity].
  - split; [apply Hsub |]. split; [eauto | left; reflexivity].
  - split; [apply ToLower_idem |]. split; [| left; reflexivity].
    exists (String.length (ToLower str)). now rewrite substring_whole.
Qed.

Lemma ParseOrderOption_result_normalised_witness :
  ToLower (field (Desc "create_time")) = field (Desc "create_time") /\
  (exists n, field (Desc "create_time")
             = substring 0 n (ToLower "CREATE_TIME_DESC")) /\
  (order (Desc "create_time") = ASC \/ order (Desc "create_time") = DESC).
Proof.
  apply (ParseOrderOption_result_normalised "CREATE_TIME_DESC"
           (Desc "create_time")); reflexivity.
Defined.

(** X2.  The clauses of the doc comment, for every ASCII field name: a
    field name followed by one separator byte and the word DESC or ASC, in
    any letter case, parses to the lower-cased field name with that order;
    the separator is dropped whatever byte it is. *)
Theorem ParseOrderOption_strips_suffix (f t : string) (sep : ascii) :
  isASCII (f ++ String sep t)%string = true ->
  (ToLower t = "desc" ->
   ParseOrderOption (f ++ String sep t) = Ret (Desc (ToLower f))) /\
  (ToLower t = "asc" ->
   ParseOrderOption (f ++ String sep t) = Ret (Asc (ToLower f))).
Proof.
  intros _.
  split; [apply ParseOrderOption_desc | apply ParseOrderOption_asc].
Qed.

Lemma ParseOrderOption_strips_suffix_witness :
  ParseOrderOption ("CREATE_TIME" ++ String "_" "Desc")
  = Ret (Desc (ToLower "CREATE_TIME")) /\
  ParseOrderOption ("create_time" ++ String " " "ASC")
  = Ret (Asc (ToLower "create_time")).
Proof.
  split.
  - apply (proj1 (ParseOrderOption_strips_suffix "CREATE_TIME" "Desc" "_"
                    eq_refl)).
    reflexivity.
  - apply (proj2 (ParseOrderOption_strips_suffix "create_time" "ASC" " "
                    eq_refl)).
    reflexivity.
Defined.

(** X3.  Printing and parsing agree: the clause that [orderOption.Sql]
    hands to the database for a lower-case ASCII field parses back to the
    same field, with the order reduced to its sign ([DESC] for a negative
    order, [ASC] for any other). *)
Theorem ParseOrderOption_orderOption_Sql (f : SimpleField) (o : ORDER) :
  isASCII f = true ->
  ToLower f = f ->
  ParseOrderOption (orderOption_Sql (mkOrderOption f o))
  = Ret (mkOrderOption f (if (o <? 0)%Z then DESC else ASC)).
Proof.
  intros _ Hf. unfold orderOption_Sql, ORDER_String. simpl.
  destruct (o <? 0)%Z.
  - pose proof (ParseOrderOption_desc f "DESC" " " eq_refl) as H.
    rewrite Hf in H. exact H.
  - pose proof (ParseOrderOption_asc f "ASC" " " eq_refl) as H.
    rewrite Hf in H. exact H.
Qed.

Lemma ParseOrderOption_orderOption_Sql_witness :
  ParseOrderOption (orderOption_Sql (mkOrderOption "create_time" (-7)%Z))
  = Ret (mkOrderOption "create_time"
           (if (-7 <? 0)%Z then DESC else ASC)).
Proof.
  apply (ParseOrderOption_orderOption_Sql "create_time" (-7)%Z); reflexivity.
Defined.

(** ** Wrappers that carry an error *)

Section Sticky.

Variable E : connLayer.
Variable w0 : nat.
Variable wr0 : dbWrapper.

Implicit Types (s : state) (w : nat) (cb : callback).

Lemma wrapperAt_same_heap s s' :
  heap s' = heap s -> wrapperAt w0 wr0 s -> wrapperAt w0 wr0 s'.
Proof. unfold wrapperAt. now intros ->. Qed.

Lemma wrapperAt_updWrapper f w s :
  w <> w0 -> wrapperAt w0 wr0 s -> wrapperAt w0 wr0 (updWrapper f w s).
Proof.
  intros Hne H. unfold wrapperAt, updWrapper. simpl.
  now rewrite list_lookup_alter_ne.
Qed.

Lemma wrapperAt_logIfError e msg s :
  wrapperAt w0 wr0 s -> wrapperAt w0 wr0 (logIfError e msg s).
Proof. destruct e; auto. Qed.

Lemma wrapperAt_recordBizErr w be s :
  w <> w0 -> wrapperAt w0 wr0 s -> wrapperAt w0 wr0 (recordBizErr w be s).
Proof.
  intros Hne H. destruct be as [e|]; simpl; [| assumption].
  eapply wrapperAt_same_heap; [| apply wrapperAt_updWrapper; eassumption].
  reflexivity.
Qed.

Lemma kept_Rollback w : preserves (wrapperAt w0 wr0) (Rollback E w).
Proof.
  intros s o s' H Hs. unfold Rollback in H.
  destruct (db (deref s w)); injection H as <- <-; auto.
Qed.

Lemma kept_Commit w : preserves (wrapperAt w0 wr0) (Commit E w).
Proof.
  intros s o s' H Hs. unfold Commit in H.
  destruct (db (deref s w)); injection H as <- <-; auto.
Qed.

Lemma kept_recovered w own r :
  w <> w0 -> preserves (wrapperAt w0 wr0) (recovered E w own r).
Proof.
  intros Hne. unfold recovered, logger_Error.
  apply preserves_bind; [apply preserves_modify; auto |]. intros _.
  apply preserves_bind;
    [apply preserves_modify; intros; now apply wrapperAt_updWrapper |].
  intros _. destruct own; simpl; [| apply preserves_ret].
  apply preserves_bind; [apply kept_Rollback |]. intros rberr.
  apply preserves_bind;
    [apply preserves_modify; intros; now apply wrapperAt_logIfError |].
  intros _.
  apply preserves_bind;
    [apply preserves_modify; intros; now apply wrapperAt_updWrapper |].
  intros _. apply preserves_ret.
Qed.

Lemma kept_resolve w rd be :
  w <> w0 -> preserves (wrapperAt w0 wr0) (resolve E w rd be).
Proof.
  intros Hne. unfold resolve, logger_Error.
  apply preserves_deferring;
    [| intros; now apply wrapperAt_updWrapper].
  destruct be as [e|].
  - apply preserves_bind; [apply kept_Rollback |]. intros rberr.
    apply preserves_bind;
      [apply preserves_modify; intros; now apply wrapperAt_logIfError |].
    intros _. apply preserves_ret.
  - intros s o s' H Hs. destruct (err (deref s w)) as [e|].
    + revert s o s' H Hs.
      apply preserves_bind; [apply preserves_modify; auto |]. intros _.
      apply preserves_bind; [apply kept_Rollback |]. intros rberr.
      apply preserves_bind;
        [apply preserves_modify; intros; now apply wrapperAt_logIfError |].
      intros _. apply preserves_ret.
    + revert s o s' H Hs.
      apply preserves_bind; [apply kept_Commit |]. intros ce.
      apply preserves_bind;
        [apply preserves_modify; intros; now apply wrapperAt_logIfError |].
      intros _. apply preserves_ret.
Qed.

Lemma kept_body ctx w own cb :
  w <> w0 ->
  preserves (wrapperAt w0 wr0) (cb ctx) ->
  preserves (wrapperAt w0 wr0) (body E ctx w own cb).
Proof.
  intros Hne Hcb s o s' H Hs. unfold body in H.
  destruct (Err ctx (canceled s)); [injection H as <- <-; auto |].
  revert s o s' H Hs.
  apply preserves_bind; [assumption |]. intros [rd be].
  apply preserves_bind;
    [apply preserves_modify; intros; now apply wrapperAt_recordBizErr |].
  intros _ s o s' H Hs.
  destruct (Err ctx (canceled s)); [injection H as <- <-; auto |].
  destruct own.
  - exact (kept_resolve w rd be Hne s o s' H Hs).
  - injection H as <- <-; auto.
Qed.

(** No way past the opening part lands on a wrapper that carries an
    error, or changes it. *)
Lemma entered_sticky tm ctx s ctx' w own s1 e :
  entered E tm ctx s ctx' w own s1 ->
  wrapperAt w0 wr0 s -> err wr0 = Some e ->
  wrapperAt w0 wr0 s1 /\ w <> w0.
Proof.
  intros H Hs He. unfold wrapperAt in *.
  assert (forall p, err (deref s p) = None -> p <> w0) as Hfresh.
  { intros p Hp ->. rewrite (deref_lookup _ _ _ Hs), He in Hp. discriminate. }
  destruct H as [d Ha Hd | p d Ha Hp Hi | p d Ha Hp Hi]; simpl.
  - split.
    + apply lookup_app_l_Some. assumption.
    + apply lookup_lt_Some in Hs. lia.
  - split; [| auto]. rewrite list_lookup_alter_ne by auto. assumption.
  - auto.
Qed.

Lemma kept_Transaction tm cb e :
  err wr0 = Some e ->
  (forall ctx, preserves (wrapperAt w0 wr0) (cb ctx)) ->
  forall ctx, preserves (wrapperAt w0 wr0) (Transaction E tm ctx cb).
Proof.
  intros He Hcb ctx s o s' H Hs.
  destruct (enter E tm ctx s) as [[res e' | ctx' w own] s1] eqn:Hen.
  - unfold Transaction in H. rewrite Hen in H. injection H as <- <-.
    apply enter_EarlyReturn in Hen as ->. assumption.
  - apply enter_Proceed in Hen.
    rewrite (Transaction_entered _ _ _ _ _ _ _ _ _ Hen) in H.
    destruct (entered_sticky _ _ _ _ _ _ _ _ Hen Hs He) as [Hs1 Hne].
    refine (preserves_recovering (wrapperAt w0 wr0) _ _ _ _ s1 o s' H Hs1).
    + apply kept_body; auto.
    + intros r. apply kept_recovered; auto.
Qed.

Lemma kept_run (u : uow) e :
  err wr0 = Some e ->
  forall ctx, preserves (wrapperAt w0 wr0) (run E u ctx).
Proof.
  intros He.
  induction u as [res e' | r | tm c child IHchild k IHk | tm c k IHk | tok e' k IHk];
    intros ctx; simpl.
  - apply preserves_ret.
  - apply preserves_raise.
  - apply preserves_bind.
    + apply (kept_Transaction tm _ e He IHchild).
    + intros r. apply IHk.
  - apply preserves_bind.
    + intros s o s' H Hs. unfold GetDb in H.
      destruct (ambient tm (c ctx) s) as [[? ?]|]; injection H as <- <-; auto.
    + intros a. apply IHk.
  - apply preserves_bind.
    + apply preserves_modify. intros s Hs. exact Hs.
    + intros _. apply IHk.
Qed.

End Sticky.

(** X4.  Inside the callback of a call that got past its opening part,
    [GetDb] on the callback's context returns the handle of the open
    transaction, when the callback starts and after any unit of work it
    has run, whatever nested calls returned or panicked meanwhile.  For an
    owning call this is the handle its own begin returned. *)
Theorem GetDb_inside_Transaction
  (E : connLayer) (tm : transactionManager) (ctx : context) (u : uow)
  (s : state) (ctx' : context) (w : nat) (own : bool) (s1 : state)
  (o : outcome result) (s2 : state) :
  enter E tm ctx s = (Proceed ctx' w own, s1) ->
  run E u ctx' s1 = (o, s2) ->
  exists tx,
    GetDb E tm ctx' s1 = (Ret (Some tx), s1) /\
    GetDb E tm ctx' s2 = (Ret (Some tx), s2) /\
    (own = true ->
     exists d, tx = TxHandle d (length (events s)) /\
               events s1 = events s ++ [EvBegin d tx]) /\
    (own = false -> GetDb E tm ctx s = (Ret (Some tx), s)).
Proof.
  intros He Hrun.
  destruct (owner_holds_after_callback E _ _ _ _ _ _ _ _ _ _ He Hrun)
    as (tx & H1 & H2).
  apply enter_Proceed in He.
  destruct (entered_holds _ _ _ _ _ _ _ _ He) as (_ & Hw & _).
  assert (forall s', holdsTx s' w tx ->
                     GetDb E tm ctx' s' = (Ret (Some tx), s')) as Hget.
  { intros s' [Hd _]. unfold GetDb.
    now rewrite (proj2 (ambient_Some tm ctx' s' w tx) (conj Hw Hd)). }
  exists tx. split; [auto |]. split; [auto |].
  pose proof (entered_events _ _ _ _ _ _ _ _ He) as Hev.
  split.
  - intros ->. destruct Hev as (d & Hevs & [Hd _]).
    exists d. destruct H1 as [Hd1 _]. rewrite Hd in Hd1.
    injection Hd1 as <-. auto.
  - intros ->. inversion He; subst. apply Hget. assumption.
Qed.

Lemma GetDb_inside_Transaction_witness :
  exists tx,
    GetDb poolConn ordersManager (setDbWrapper ordersManager Background 0)
      (snd (enter poolConn ordersManager Background idle))
    = (Ret (Some tx), snd (enter poolConn ordersManager Background idle)) /\
    GetDb poolConn ordersManager (setDbWrapper ordersManager Background 0)
      (snd (run poolConn nestedPanic
              (setDbWrapper ordersManager Background 0)
              (snd (enter poolConn ordersManager Background idle))))
    = (Ret (Some tx),
       snd (run poolConn nestedPanic
              (setDbWrapper ordersManager Background 0)
              (snd (enter poolConn ordersManager Background idle)))) /\
    tx = TxHandle (RawConn 0) 0.
Proof.
  destruct (GetDb_inside_Transaction poolConn ordersManager Background
              nestedPanic idle (setDbWrapper ordersManager Background 0) 0 true
              (snd (enter poolConn ordersManager Background idle))
              (fst (run poolConn nestedPanic
                      (setDbWrapper ordersManager Background 0)
                      (snd (enter poolConn ordersManager Background idle))))
              (snd (run poolConn nestedPanic
                      (setDbWrapper ordersManager Background 0)
                      (snd (enter poolConn ordersManager Background idle))))
              eq_refl eq_refl)
    as (tx & H1 & H2 & H3 & _).
  exists tx. split; [exact H1 |]. split; [exact H2 |].
  destruct (H3 eq_refl) as (d & -> & Hev).
  vm_compute in Hev. injection Hev as <-. reflexivity.
Defined.

(** X5.  A wrapper that carries a sticky error is out of reach of every
    unit of work: whatever calls it makes, on whatever contexts and
    managers, and however they end, the wrapper is left exactly as it was,
    with the error recorded first. *)
Theorem sticky_wrapper_untouched
  (E : connLayer) (u : uow) (ctx : context) (s : state)
  (o : outcome result) (s' : state) (w : nat) (wr : dbWrapper) (e : error) :
  heap s !! w = Some wr ->
  err wr = Some e ->
  run E u ctx s = (o, s') ->
  heap s' !! w = Some wr.
Proof.
  intros Hw He Hrun.
  exact (kept_run E w wr u e He ctx s o s' Hrun Hw).
Qed.

Lemma sticky_wrapper_untouched_witness :
  heap (snd (run poolConn threeLevels joinedCtx doomedState)) !! 0
  = Some (mkDbWrapper (Some openTx) true (Some insufficientStock)).
Proof.
  apply (sticky_wrapper_untouched poolConn threeLevels joinedCtx doomedState
           (fst (run poolConn threeLevels joinedCtx doomedState))
           (snd (run poolConn threeLevels joinedCtx doomedState))
           0 (mkDbWrapper (Some openTx) true (Some insufficientStock))
           insufficientStock);
    reflexivity.
Defined.

(** X6.  A call whose context is found cancelled when the callback has
    returned gives up the callback's result and error for the context's
    error, and issues neither a commit nor a rollback, owner or not: the
    wrapper still holds the open transaction, with the callback's error,
    if any, recorded in it. *)
Theorem Transaction_canceled_after_callback
  (E : connLayer) (tm : transactionManager) (ctx : context) (u : uow)
  (s : state) (ctx' : context) (w : nat) (own : bool) (s1 : state)
  (rd : value) (be : option error) (s2 : state) (e : error) :
  enter E tm ctx s = (Proceed ctx' w own, s1) ->
  Err ctx' (canceled s1) = None ->
  run E u ctx' s1 = (Ret (rd, be), s2) ->
  Err ctx' (canceled s2) = Some e ->
  exists tx s3,
    Transaction E tm ctx (run E u) s = (Ret (None, Some e), s3) /\
    events s3 = events s2 /\
    holdsTx s3 w tx /\
    (forall e', be = Some e' -> err (deref s3 w) = Some e').
Proof.
  intros He Hc1 Hrun Hc2.
  destruct (owner_holds_after_callback E _ _ _ _ _ _ _ _ _ _ He Hrun)
    as (tx & _ & Htx).
  apply enter_Proceed in He.
  exists tx, (recordBizErr w be s2).
  rewrite (Transaction_entered _ _ _ _ _ _ _ _ _ He). unfold recovering.
  rewrite (body_returns _ _ _ _ _ _ _ _ _ Hc1 Hrun), Hc2.
  split; [reflexivity |]. split; [apply events_recordBizErr |].
  split; [now apply holdsTx_recordBizErr |].
  intros e' ->. simpl. destruct Htx as [Hd _].
  change (deref (logged "doTransaction err"
                   (updWrapper (withErr (Some e')) w s2)) w)
    with (deref (updWrapper (withErr (Some e')) w s2) w).
  now rewrite (deref_updWrapper_same _ _ _ _ (deref_db_lookup _ _ _ Hd)).
Qed.

Lemma Transaction_canceled_after_callback_witness :
  exists tx s3,
    Transaction poolConn ordersManager requestCtx
      (run poolConn failsAfterCancel) idle
    = (Ret (None, Some Canceled), s3) /\
    events s3 =
      events (snd (run poolConn failsAfterCancel
                     (setDbWrapper ordersManager requestCtx 0)
                     (snd (enter poolConn ordersManager requestCtx idle)))) /\
    holdsTx s3 0 tx /\
    (forall e', Some insufficientStock = Some e' ->
                err (deref s3 0) = Some e').
Proof.
  apply (Transaction_canceled_after_callback poolConn ordersManager requestCtx
           failsAfterCancel idle (setDbWrapper ordersManager requestCtx 0)
           0 true (snd (enter poolConn ordersManager requestCtx idle))
           None (Some insufficientStock)
           (snd (run poolConn failsAfterCancel
                   (setDbWrapper ordersManager requestCtx 0)
                   (snd (enter poolConn ordersManager requestCtx idle))))
           Canceled);
    reflexivity.
Defined.

(** ** Every begin is resolved, as long as nothing is cancelled *)

Section Tidy.

Variable E : connLayer.

Implicit Types (s : state) (w : nat) (cb : callback).

Lemma Err_nil ctx : Err ctx [] = None.
Proof. induction ctx; simpl; auto. Qed.

Lemma canceled_recordBizErr w be s :
  canceled (recordBizErr w be s) = canceled s.
Proof. destruct be; reflexivity. Qed.

Lemma canceled_logIfError e msg s : canceled (logIfError e msg s) = canceled s.
Proof. destruct e; reflexivity. Qed.

Lemma resolve_tidy s w tx rd be o s' :
  holdsTx s w tx ->
  resolve E w rd be s = (o, s') ->
  (exists res, o = Ret res) /\
  canceled s' = canceled s /\
  (events s' = events s ++ [EvCommit tx] \/
   events s' = events s ++ [EvRollback tx]).
Proof.
  intros Htx. destruct be as [e|].
  - rewrite (resolve_business_error E _ _ _ _ _ Htx). intros [= <- <-].
    unfold reset, updWrapper. simpl.
    rewrite canceled_logIfError, events_logIfError. eauto.
  - destruct (err (deref s w)) as [e|] eqn:Hs.
    + rewrite (resolve_sticky_error E _ _ _ _ _ Htx Hs). intros [= <- <-].
      unfold reset, updWrapper. simpl.
      rewrite canceled_logIfError, events_logIfError. eauto.
    + rewrite (resolve_commit E _ _ _ _ Htx Hs). intros [= <- <-].
      unfold reset, updWrapper. simpl.
      rewrite canceled_logIfError, events_logIfError. eauto.
Qed.

Lemma recovered_tidy s w tx own r o s' :
  holdsTx s w tx ->
  recovered E w own r s = (o, s') ->
  canceled s' = canceled s /\
  events s' = events s ++ (if own then [EvRollback tx] else []).
Proof.
  intros Htx. destruct own.
  - rewrite (recovered_owner E _ _ _ _ Htx). intros [= <- <-].
    unfold reset, updWrapper. simpl.
    rewrite canceled_logIfError, events_logIfError. auto.
  - rewrite recovered_joined. intros [= <- <-]. simpl.
    now rewrite app_nil_r.
Qed.

Lemma Transaction_tidy tm cb :
  keepsOpenTx cb -> tidy cb -> tidy (fun ctx => Transaction E tm ctx cb).
Proof.
  intros Hk Ht ctx s o s' Hc H.
  destruct (enter E tm ctx s) as [[res e | ctx' w own] s1] eqn:He.
  { unfold Transaction in H. rewrite He in H. injection H as <- <-.
    apply enter_EarlyReturn in He as ->. split; [assumption |].
    exists []. rewrite app_nil_r. split; [reflexivity | constructor]. }
  apply enter_Proceed in He.
  rewrite (Transaction_entered _ _ _ _ _ _ _ _ _ He) in H.
  destruct (entered_holds _ _ _ _ _ _ _ _ He)
    as ((tx0 & Htx0 & _) & _ & Hc1 & _ & _).
  rewrite Hc in Hc1.
  pose proof (entered_events _ _ _ _ _ _ _ _ He) as Hev.
  assert (exists tx, holdsTx s1 w tx /\
            forall evs final,
              final = (if own then [EvCommit tx] else []) \/
              final = (if own then [EvRollback tx] else []) ->
              balanced evs ->
              exists evs', events s1 ++ evs ++ final = events s ++ evs' /\
                           balanced evs') as (tx & Htx & Hbal).
  { destruct own.
    - destruct Hev as (d & Hevs & Hh). eexists. split; [exact Hh |].
      intros evs final Hf Hb. rewrite Hevs.
      eexists. split; [rewrite <- app_assoc; reflexivity |].
      simpl. destruct Hf as [-> | ->]; now constructor.
    - subst s1. exists tx0. split; [assumption |].
      intros evs final Hf Hb. exists evs.
      destruct Hf as [-> | ->]; now rewrite app_nil_r. }
  unfold recovering in H.
  assert (Err ctx' (canceled s1) = None) as HE1
      by (rewrite Hc1; apply Err_nil).
  destruct (cb ctx' s1) as [[[rd be] | r] s2] eqn:Hrun.
  - destruct (Ht _ _ _ _ Hc1 Hrun) as (Hc2 & evs & Hevs & Hb).
    pose proof (Hk ctx' w tx s1 _ _ Hrun Htx) as Htx2.
    rewrite (body_returns _ _ _ _ _ _ _ _ _ HE1 Hrun) in H.
    rewrite Hc2, Err_nil in H.
    pose proof (holdsTx_recordBizErr _ w _ _ be Htx2) as Htx3.
    destruct own.
    + destruct (resolve E w rd be (recordBizErr w be s2)) as [o3 s3] eqn:Hres.
      destruct (resolve_tidy _ _ _ _ _ _ _ Htx3 Hres)
        as ((res & ->) & Hc3 & Hev3).
      injection H as <- <-.
      rewrite canceled_recordBizErr in Hc3.
      rewrite events_recordBizErr, Hevs, <- !app_assoc in Hev3.
      split; [congruence |].
      destruct Hev3 as [-> | ->]; apply Hbal; auto.
    + injection H as <- <-.
      rewrite canceled_recordBizErr, events_recordBizErr, Hevs.
      split; [assumption |].
      destruct (Hbal evs [] (or_introl eq_refl) Hb) as (evs' & Heq & Hb').
      rewrite app_nil_r in Heq. eauto.
  - destruct (Ht _ _ _ _ Hc1 Hrun) as (Hc2 & evs & Hevs & Hb).
    pose proof (Hk ctx' w tx s1 _ _ Hrun Htx) as Htx2.
    rewrite (body_panics _ _ _ _ _ _ _ _ HE1 Hrun) in H.
    destruct (recovered_tidy _ _ _ _ _ _ _ Htx2 H) as (Hc3 & Hev3).
    split; [congruence |].
    rewrite Hev3, Hevs, <- app_assoc. apply Hbal; auto.
Qed.

Lemma run_tidy (u : uow) : nocancel u -> tidy (run E u).
Proof.
  induction 1 as [res e | r | tm c child k Hchild IHchild Hk IHk
                  | tm c k Hk IHk];
    intros ctx s o s' Hc Hrun; simpl in Hrun.
  - injection Hrun as <- <-. split; [assumption |].
    exists []. rewrite app_nil_r. split; [reflexivity | constructor].
  - injection Hrun as <- <-. split; [assumption |].
    exists []. rewrite app_nil_r. split; [reflexivity | constructor].
  - unfold bind in Hrun.
    destruct (Transaction E tm (c ctx) (run E child) s) as [[a | r] s1] eqn:Ht.
    + destruct (Transaction_tidy tm _ (keepsOpenTx_run E child) IHchild
                  _ _ _ _ Hc Ht) as (Hc1 & evs1 & Hev1 & Hb1).
      destruct (IHk a _ _ _ _ Hc1 Hrun) as (Hc2 & evs2 & Hev2 & Hb2).
      split; [assumption |]. exists (evs1 ++ evs2).
      split; [now rewrite Hev2, Hev1, app_assoc | now constructor].
    + injection Hrun as <- <-.
      exact (Transaction_tidy tm _ (keepsOpenTx_run E child) IHchild
               _ _ _ _ Hc Ht).
  - unfold bind, GetDb in Hrun.
    destruct (ambient tm (c ctx) s) as [[? ?]|]; eapply IHk; eauto.
Qed.

Lemma balanced_counts (l : list dbEvent) :
  balanced l ->
  length (List.filter isBegin l) = length (List.filter isEnd l).
Proof.
  induction 1 as [| l1 l2 _ IH1 _ IH2 | d tx l _ IH | d tx l _ IH]; simpl.
  - reflexivity.
  - rewrite !List.filter_app, !length_app. lia.
  - rewrite !List.filter_app, !length_app. simpl. lia.
  - rewrite !List.filter_app, !length_app. simpl. lia.
Qed.

End Tidy.

(** X7.  As long as no context is cancelled, a call leaves no transaction
    open: whatever the callback and its nested calls do (return, fail,
    panic), the calls issued to the connection layer are balanced, every
    begin being followed by exactly one commit or rollback of the
    transaction it began; so there are as many begins as resolutions. *)
Theorem Transaction_resolves_every_begin
  (E : connLayer) (tm : transactionManager) (ctx : context) (u : uow)
  (s : state) (o : outcome result) (s' : state) :
  nocancel u ->
  canceled s = [] ->
  Transaction E tm ctx (run E u) s = (o, s') ->
  exists evs,
    events s' = events s ++ evs /\
    balanced evs /\
    length (List.filter isBegin evs) = length (List.filter isEnd evs).
Proof.
  intros Hu Hc H.
  destruct (Transaction_tidy E tm _ (keepsOpenTx_run E u) (run_tidy E u Hu)
              ctx s o s' Hc H) as (_ & evs & Hev & Hb).
  exists evs. auto using balanced_counts.
Qed.

Lemma Transaction_resolves_every_begin_witness :
  exists evs,
    events (snd (Transaction poolConn ordersManager Background
                   (run poolConn nestedPanic) idle))
    = events idle ++ evs /\
    balanced evs /\
    length (List.filter isBegin evs) = length (List.filter isEnd evs).
Proof.
  apply (Transaction_resolves_every_begin poolConn ordersManager Background
           nestedPanic idle
           (fst (Transaction poolConn ordersManager Background
                   (run poolConn nestedPanic) idle))
           (snd (Transaction poolConn ordersManager Background
                   (run poolConn nestedPanic) idle))).
  - unfold nestedPanic. repeat constructor.
  - reflexivity.
  - reflexivity.
Defined.

(** ** The registry, key by key *)

Section RegistryKeys.

Implicit Types (r : registry) (p : nat).

Lemma consistent_empty : consistent emptyRegistry.
Proof.
  intros k p H. unfold emptyRegistry in H. simpl in H.
  rewrite lookup_empty in H. discriminate.
Qed.

Lemma NewTransactionManager_consistent sn dbn r p r' :
  consistent r ->
  NewTransactionManager sn dbn r = Some (p, r') ->
  consistent r'.
Proof.
  intros Hr H.
  destruct (tmMap r !! mapKeyOf sn dbn) as [q|] eqn:Hk.
  - rewrite (NewTransactionManager_hit _ _ _ _ Hk) in H.
    now injection H as _ <-.
  - destruct (mutex r) eqn:Hm.
    { unfold NewTransactionManager in H. rewrite Hk, Hm in H. discriminate. }
    rewrite (NewTransactionManager_miss _ _ _ Hk Hm) in H.
    injection H as _ <-. intros k q. simpl.
    destruct (decide (k = mapKeyOf sn dbn)) as [-> | Hne].
    + rewrite lookup_insert_eq. intros [= <-].
      eexists. split; [| split].
      * rewrite lookup_app_r by lia. now rewrite Nat.sub_diag.
      * reflexivity.
      * reflexivity.
    + rewrite lookup_insert_ne by auto. intros Hq.
      destruct (Hr k q Hq) as (tm & Htm & H1 & H2).
      exists tm. split; [| auto]. now apply lookup_app_l_Some.
Qed.

Lemma newManagers_consistent calls :
  forall r r', consistent r -> newManagers calls r = Some r' -> consistent r'.
Proof.
  induction calls as [| [sn dbn] rest IH]; intros r r' Hr H; simpl in H.
  - now injection H as <-.
  - destruct (NewTransactionManager sn dbn r) as [[p r1]|] eqn:H1;
      [| discriminate].
    eapply IH; [| exact H].
    eapply NewTransactionManager_consistent; eauto.
Qed.

Lemma NewTransactionManager_registers sn dbn r p r' :
  NewTransactionManager sn dbn r = Some (p, r') ->
  mutex r = false ->
  mutex r' = false /\ extends r r' /\ tmMap r' !! mapKeyOf sn dbn = Some p.
Proof.
  intros H Hm.
  destruct (NewTransactionManager_spec sn dbn r Hm) as (q & r1 & H1 & H2).
  rewrite H in H1. now injection H1 as <- <-.
Qed.

Lemma append_inj_l (a b c : string) : (a ++ b = a ++ c)%string -> b = c.
Proof.
  induction a as [|x a IH]; [auto |].
  change (String x (a ++ b)%string = String x (a ++ c)%string -> b = c).
  intros [= H]. auto.
Qed.

Lemma mapKeyOf_noColon sn1 d1 sn2 d2 :
  noColon sn1 = true -> noColon sn2 = true ->
  mapKeyOf sn1 d1 = mapKeyOf sn2 d2 -> sn1 = sn2 /\ d1 = d2.
Proof.
  unfold mapKeyOf. revert sn2.
  induction sn1 as [|x sn1 IH]; intros [|y sn2] H1 H2 H.
  - change (String ":" d1 = String ":" d2) in H.
    injection H as ->. auto.
  - change (String ":" d1 = String y (sn2 ++ ":" ++ d2)%string) in H.
    injection H as <- _. discriminate H2.
  - change (String x (sn1 ++ ":" ++ d1)%string = String ":" d2) in H.
    injection H as -> _. discriminate H1.
  - change (String x (sn1 ++ ":" ++ d1)%string
            = String y (sn2 ++ ":" ++ d2)%string) in H.
    injection H as -> H. simpl in H1, H2.
    apply andb_prop in H1 as [_ H1]. apply andb_prop in H2 as [_ H2].
    destruct (IH sn2 H1 H2 H) as [-> ->]. auto.
Qed.

End RegistryKeys.

(** X8.  In a registry built by calls to [NewTransactionManager] alone,
    two requests return the same manager exactly when their map keys are
    equal, and managers returned for different keys look up different
    context keys; each manager carries the names and the context key of
    the key it is registered under. *)
Theorem NewTransactionManager_separates_keys
  (calls : list (string * string)) (r : registry)
  (sn1 d1 sn2 d2 : string) (p1 p2 : nat) (r1 r2 : registry)
  (tm1 tm2 : transactionManager) :
  newManagers calls emptyRegistry = Some r ->
  NewTransactionManager sn1 d1 r = Some (p1, r1) ->
  NewTransactionManager sn2 d2 r1 = Some (p2, r2) ->
  managers r2 !! p1 = Some tm1 ->
  managers r2 !! p2 = Some tm2 ->
  (p1 = p2 <-> mapKeyOf sn1 d1 = mapKeyOf sn2 d2) /\
  (ctxDbWrapperKey tm1 = ctxDbWrapperKey tm2 <->
   mapKeyOf sn1 d1 = mapKeyOf sn2 d2) /\
  mapKeyOf (serviceName tm1) (database tm1) = mapKeyOf sn1 d1 /\
  ctxDbWrapperKey tm1 = ("dbWrapper:" ++ mapKeyOf sn1 d1)%string.
Proof.
  intros Hcalls H1 H2 Hp1 Hp2.
  destruct (newManagers_spec calls emptyRegistry eq_refl)
    as (r' & Hr' & Hm & _).
  rewrite Hcalls in Hr'. injection Hr' as <-.
  pose proof (newManagers_consistent _ _ _ consistent_empty Hcalls) as Hc.
  pose proof (NewTransactionManager_consistent _ _ _ _ _ Hc H1) as Hc1.
  pose proof (NewTransactionManager_consistent _ _ _ _ _ Hc1 H2) as Hc2.
  destruct (NewTransactionManager_registers _ _ _ _ _ H1 Hm)
    as (Hm1 & _ & Hk1).
  destruct (NewTransactionManager_registers _ _ _ _ _ H2 Hm1)
    as (_ & [Hext _] & Hk2).
  apply Hext in Hk1.
  destruct (Hc2 _ _ Hk1) as (tm1' & Htm1 & Ha1 & Hb1).
  destruct (Hc2 _ _ Hk2) as (tm2' & Htm2 & Ha2 & Hb2).
  rewrite Hp1 in Htm1. injection Htm1 as <-.
  rewrite Hp2 in Htm2. injection Htm2 as <-.
  split; [| split; [| auto]].
  - split.
    + intros <-. rewrite Hp1 in Hp2. injection Hp2 as <-. congruence.
    + intros Heq. rewrite Heq in Hk1. congruence.
  - split.
    + rewrite Hb1, Hb2. apply append_inj_l.
    + intros Heq. rewrite Hb1, Hb2. now rewrite Heq.
Qed.

Lemma NewTransactionManager_separates_keys_witness :
  (0 = 1 <-> mapKeyOf "orders" "primary" = mapKeyOf "orders" "replica") /\
  (ctxDbWrapperKey ordersManager
   = ctxDbWrapperKey
       (mkTransactionManager "orders" "replica" "dbWrapper:orders:replica") <->
   mapKeyOf "orders" "primary" = mapKeyOf "orders" "replica") /\
  mapKeyOf (serviceName ordersManager) (database ordersManager)
  = mapKeyOf "orders" "primary" /\
  ctxDbWrapperKey ordersManager
  = ("dbWrapper:" ++ mapKeyOf "orders" "primary")%string.
Proof.
  apply (NewTransactionManager_separates_keys
           [("orders", "primary")]
           (default emptyRegistry
              (newManagers [("orders", "primary")] emptyRegistry))
           "orders" "primary" "orders" "replica" 0 1
           (default emptyRegistry
              (newManagers [("orders", "primary")] emptyRegistry))
           (default emptyRegistry
              (newManagers [("orders", "primary"); ("orders", "replica")]
                 emptyRegistry)));
    vm_compute; reflexivity.
Defined.

(** X9.  The map key joins the two names with a colon and nothing tells
    a colon of a name from the separator: the requests for
    (a:b, c) and for (a, b:c) share one key, so the second one is handed
    the manager built for the first, with the first pair's service name
    and database. *)
Theorem NewTransactionManager_colon_collision
  (a b c : string) (r : registry) :
  mutex r = false ->
  tmMap r !! mapKeyOf (a ++ ":" ++ b) c = None ->
  exists p r1,
    NewTransactionManager (a ++ ":" ++ b) c r = Some (p, r1) /\
    NewTransactionManager a (b ++ ":" ++ c) r1 = Some (p, r1) /\
    managers r1 !! p =
      Some (mkTransactionManager (a ++ ":" ++ b) c
              ("dbWrapper:" ++ mapKeyOf (a ++ ":" ++ b) c)).
Proof.
  intros Hm Hk.
  rewrite (NewTransactionManager_miss _ _ _ Hk Hm).
  eexists _, _. split; [reflexivity |]. split.
  - apply NewTransactionManager_hit. simpl.
    replace (mapKeyOf a (b ++ ":" ++ c)) with (mapKeyOf (a ++ ":" ++ b) c).
    + apply lookup_insert_eq.
    + unfold mapKeyOf. now rewrite append_assoc.
  - simpl. rewrite lookup_app_r by lia. now rewrite Nat.sub_diag.
Qed.

Lemma NewTransactionManager_colon_collision_witness :
  exists p r1,
    NewTransactionManager ("eu" ++ ":" ++ "orders") "primary" emptyRegistry
    = Some (p, r1) /\
    NewTransactionManager "eu" ("orders" ++ ":" ++ "primary") r1
    = Some (p, r1) /\
    managers r1 !! p =
      Some (mkTransactionManager ("eu" ++ ":" ++ "orders") "primary"
              ("dbWrapper:" ++ mapKeyOf ("eu" ++ ":" ++ "orders") "primary")).
Proof.
  apply (NewTransactionManager_colon_collision "eu" "orders" "primary"
           emptyRegistry); reflexivity.
Defined.

(** X10.  With service names that contain no colon, two requests are
    handed the same manager only when they name the same service and the
    same database. *)
Theorem NewTransactionManager_separates_pairs
  (calls : list (string * string)) (r : registry)
  (sn1 d1 sn2 d2 : string) (p : nat) (r1 r2 : registry) :
  newManagers calls emptyRegistry = Some r ->
  noColon sn1 = true ->
  noColon sn2 = true ->
  NewTransactionManager sn1 d1 r = Some (p, r1) ->
  NewTransactionManager sn2 d2 r1 = Some (p, r2) ->
  sn1 = sn2 /\ d1 = d2.
Proof.
  intros Hcalls Hn1 Hn2 H1 H2.
  destruct (newManagers_spec calls emptyRegistry eq_refl)
    as (r' & Hr' & Hm & _).
  rewrite Hcalls in Hr'. injection Hr' as <-.
  pose proof (newManagers_consistent _ _ _ consistent_empty Hcalls) as Hc.
  pose proof (NewTransactionManager_consistent _ _ _ _ _ Hc H1) as Hc1.
  pose proof (NewTransactionManager_consistent _ _ _ _ _ Hc1 H2) as Hc2.
  destruct (NewTransactionManager_registers _ _ _ _ _ H1 Hm)
    as (Hm1 & _ & Hk1).
  destruct (NewTransactionManager_registers _ _ _ _ _ H2 Hm1)
    as (_ & [Hext _] & Hk2).
  apply Hext in Hk1.
  destruct (Hc2 _ _ Hk1) as (tm1 & Htm1 & Ha1 & _).
  destruct (Hc2 _ _ Hk2) as (tm2 & Htm2 & Ha2 & _).
  rewrite Htm1 in Htm2. injection Htm2 as <-.
  apply mapKeyOf_noColon; congruence.
Qed.

Lemma NewTransactionManager_separates_pairs_witness :
  "orders" = "orders" /\ "primary" = "primary".
Proof.
  apply (NewTransactionManager_separates_pairs
           [("billing", "primary")]
           (default emptyRegistry
              (newManagers [("billing", "primary")] emptyRegistry))
           "orders" "primary" "orders" "primary" 1
           (default emptyRegistry
              (newManagers [("billing", "primary"); ("orders", "primary")]
                 emptyRegistry))
           (default emptyRegistry
              (newManagers [("billing", "primary"); ("orders", "primary")]
                 emptyRegistry)));
    vm_compute; reflexivity.
Defined.

(** ** Two managers on one context *)

Section TwoManagers.

Variable E : connLayer.
Variables tm1 tm2 : transactionManager.
Hypothesis keys_differ : ctxDbWrapperKey tm1 <> ctxDbWrapperKey tm2.

Lemma getDbWrapper_other ctx w :
  getDbWrapper tm2 (setDbWrapper tm1 ctx w) = getDbWrapper tm2 ctx /\
  getDbWrapper tm1 (setDbWrapper tm2 ctx w) = getDbWrapper tm1 ctx.
Proof.
  unfold getDbWrapper, setDbWrapper. simpl.
  rewrite !decide_False by congruence. auto.
Qed.

Lemma entered_other ctx s ctx' w own s1 :
  entered E tm1 ctx s ctx' w own s1 ->
  getDbWrapper tm2 ctx' = getDbWrapper tm2 ctx.
Proof.
  intros [d Ha Hd | p d Ha Hp Hi | p d Ha Hp Hi]; try reflexivity.
  apply getDbWrapper_other.
Qed.

End TwoManagers.

(** X11.  Transactions of two managers with different context keys nest
    without sharing: inside a call of the first manager, a call of the
    second one (none of whose wrappers is in the context) begins a
    transaction of its own on its own connection, in a wrapper of its own,
    and the context it hands to its callback serves both managers, each
    with the handle of its own transaction. *)
Theorem Transaction_managers_do_not_share
  (E : connLayer) (tm1 tm2 : transactionManager) (ctx : context) (s : state)
  (ctx1 : context) (w1 : nat) (own1 : bool) (s1 : state) (d2 : DB) :
  ctxDbWrapperKey tm1 <> ctxDbWrapperKey tm2 ->
  getDbWrapper tm2 ctx = None ->
  getDb E tm2 = Some d2 ->
  enter E tm1 ctx s = (Proceed ctx1 w1 own1, s1) ->
  exists ctx2 w2 s2 tx1,
    enter E tm2 ctx1 s1 = (Proceed ctx2 w2 true, s2) /\
    w2 <> w1 /\
    events s2 = events s1 ++ [EvBegin d2 (TxHandle d2 (length (events s1)))] /\
    GetDb E tm1 ctx1 s1 = (Ret (Some tx1), s1) /\
    GetDb E tm1 ctx2 s2 = (Ret (Some tx1), s2) /\
    GetDb E tm2 ctx2 s2 = (Ret (Some (TxHandle d2 (length (events s1)))), s2).
Proof.
  intros Hkeys Hnone Hd2 He. apply enter_Proceed in He.
  destruct (entered_holds _ _ _ _ _ _ _ _ He) as ((tx1 & Htx1 & _) & Hw1 & _).
  pose proof (entered_other E tm1 tm2 Hkeys _ _ _ _ _ _ He) as Hsame.
  rewrite Hnone in Hsame.
  assert (ambient tm2 ctx1 s1 = None) as Ha
      by (apply ambient_None; now left).
  pose proof (entered_new E tm2 ctx1 s1 d2 Ha Hd2) as He2.
  pose proof (entered_frame _ _ _ _ _ _ _ _ _ _ He2 Htx1) as [Htx1' Hne].
  destruct (entered_holds _ _ _ _ _ _ _ _ He2) as (_ & Hw2 & _).
  destruct (entered_events _ _ _ _ _ _ _ _ He2) as (d & Hev & [Hdb2 _]).
  apply enter_Proceed in He2.
  eexists _, _, _, tx1. split; [exact He2 |].
  split; [auto |]. split; [reflexivity |].
  assert (forall tm c s' w tx,
            getDbWrapper tm c = Some w -> holdsTx s' w tx ->
            GetDb E tm c s' = (Ret (Some tx), s')) as Hget.
  { intros tm c s' w tx Hw [Hd _]. unfold GetDb.
    now rewrite (proj2 (ambient_Some tm c s' w tx) (conj Hw Hd)). }
  split; [now apply (Hget tm1 ctx1 s1 w1) |].
  split.
  - apply (Hget tm1 _ _ w1); [| assumption].
    rewrite (proj2 (getDbWrapper_other tm1 tm2 Hkeys ctx1 _)). assumption.
  - apply (Hget tm2 _ _ (length (heap s1))); [assumption |].
    unfold holdsTx, deref. simpl.
    rewrite lookup_app_r by lia. rewrite Nat.sub_diag. simpl. auto.
Qed.

Lemma Transaction_managers_do_not_share_witness :
  exists ctx2 w2 s2 tx1,
    enter poolConn
      (mkTransactionManager "billing" "primary" "dbWrapper:billing:primary")
      (setDbWrapper ordersManager Background 0)
      (snd (enter poolConn ordersManager Background idle))
    = (Proceed ctx2 w2 true, s2) /\
    w2 <> 0 /\
    events s2 =
      events (snd (enter poolConn ordersManager Background idle)) ++
      [EvBegin (RawConn 0)
         (TxHandle (RawConn 0)
            (length (events (snd (enter poolConn ordersManager Background
                                    idle)))))] /\
    GetDb poolConn ordersManager (setDbWrapper ordersManager Background 0)
      (snd (enter poolConn ordersManager Background idle))
    = (Ret (Some tx1), snd (enter poolConn ordersManager Background idle)) /\
    GetDb poolConn ordersManager ctx2 s2 = (Ret (Some tx1), s2) /\
    GetDb poolConn
      (mkTransactionManager "billing" "primary" "dbWrapper:billing:primary")
      ctx2 s2
    = (Ret (Some (TxHandle (RawConn 0)
                    (length (events (snd (enter poolConn ordersManager
                                            Background idle)))))), s2).
Proof.
  apply (Transaction_managers_do_not_share poolConn ordersManager
           (mkTransactionManager "billing" "primary"
              "dbWrapper:billing:primary")
           Background idle (setDbWrapper ordersManager Background 0) 0 true
           (snd (enter poolConn ordersManager Background idle))
           (RawConn 0)).
  - discriminate.
  - reflexivity.
  - reflexivity.
  - reflexivity.
Defined.

(** ** db.go: the connection registry *)

Section DbRegistryFacts.

Import DbRegistry.

Variable G : driver.

Implicit Types (s : pkg) (database serviceName : string).

Lemma setLock_free s : lock s = false -> setLock false (setLock true s) = s.
Proof. destruct s as [r l c o]. simpl. now intros ->. Qed.

Lemma dbKeyOf_inj database1 database2 serviceName :
  dbKeyOf database1 serviceName = dbKeyOf database2 serviceName ->
  database1 = database2.
Proof.
  unfold dbKeyOf. intros H.
  apply append_inj_l in H. now apply (append_inj_l "#") in H.
Qed.

(** A request for a registered key: the entry is returned, nothing moves. *)
Lemma GetDBByDatabaseName_hit database serviceName s info :
  dbRegister s !! dbKeyOf database serviceName = Some info ->
  GetDBByDatabaseName G database serviceName s = Some (Ret (Some info), s).
Proof. intros H. unfold GetDBByDatabaseName. now rewrite H. Qed.

Lemma GetDB_hit database serviceName s info :
  dbRegister s !! dbKeyOf database serviceName = Some info ->
  GetDB G database serviceName s = Some (Ret (Conn info), s).
Proof.
  intros H. unfold GetDB. now rewrite (GetDBByDatabaseName_hit _ _ _ _ H).
Qed.

(** A request for a key that is not registered, case by case. *)
Inductive missed database serviceName s
  : outcome (option DBInfo) -> pkg -> Prop :=
  | missed_no_config :
      ServiceConfigMap s !! serviceName = None ->
      missed database serviceName s
        (Raise (PanicValue
                  "can not find service config, please set config first!!!"))
        s
  | missed_nil_config :
      ServiceConfigMap s !! serviceName = Some None ->
      missed database serviceName s (Raise nilDereference) s
  | missed_open_failed dbConf e :
      ServiceConfigMap s !! serviceName = Some (Some dbConf) ->
      OpenError G (length (opens s)) (Dialect dbConf) (Dsn dbConf) = Some e ->
      missed database serviceName s (Raise (PanicError e))
        (mkPkg (dbRegister s) false (ServiceConfigMap s)
               (opens s ++ [(Dialect dbConf, Dsn dbConf)]))
  | missed_opened dbConf :
      ServiceConfigMap s !! serviceName = Some (Some dbConf) ->
      OpenError G (length (opens s)) (Dialect dbConf) (Dsn dbConf) = None ->
      missed database serviceName s
        (Ret (Some (mkDBInfo serviceName (Some dbConf)
                      (Some (RawConn (length (opens s)))))))
        (mkPkg (<[dbKeyOf database serviceName :=
                    mkDBInfo serviceName (Some dbConf)
                      (Some (RawConn (length (opens s))))]> (dbRegister s))
               false (ServiceConfigMap s)
               (opens s ++ [(Dialect dbConf, Dsn dbConf)])).

Lemma GetDBByDatabaseName_miss database serviceName s :
  dbRegister s !! dbKeyOf database serviceName = None ->
  lock s = false ->
  exists o s', GetDBByDatabaseName G database serviceName s = Some (o, s') /\
               missed database serviceName s o s'.
Proof.
  intros Hk Hl. unfold GetDBByDatabaseName. rewrite Hk, Hl. simpl. rewrite Hk.
  destruct (ServiceConfigMap s !! serviceName) as [[dbConf|]|] eqn:Hc.
  - unfold InitDBConnect. simpl.
    destruct (OpenError G (length (opens s)) (Dialect dbConf) (Dsn dbConf))
      as [e|] eqn:Ho.
    + eexists _, _. split; [reflexivity |].
      unfold setLock. simpl. now apply missed_open_failed.
    + eexists _, _. split.
      * unfold register, setLock. simpl. rewrite lookup_insert_eq. reflexivity.
      * now apply missed_opened.
  - unfold InitDBConnect. simpl. eexists _, _. split; [reflexivity |].
    rewrite (setLock_free s Hl). now apply missed_nil_config.
  - eexists _, _. split; [reflexivity |].
    rewrite (setLock_free s Hl). now apply missed_no_config.
Qed.

Lemma GetDBByDatabaseName_blocked database serviceName s :
  dbRegister s !! dbKeyOf database serviceName = None ->
  lock s = true ->
  GetDBByDatabaseName G database serviceName s = None.
Proof. intros Hk Hl. unfold GetDBByDatabaseName. now rewrite Hk, Hl. Qed.

(** Whatever a request does, registered entries stay as they are. *)
Lemma GetDB_keeps_entries database serviceName s o s' k info :
  GetDB G database serviceName s = Some (o, s') ->
  dbRegister s !! k = Some info -> dbRegister s' !! k = Some info.
Proof.
  intros H Hk. unfold GetDB in H.
  destruct (dbRegister s !! dbKeyOf database serviceName) as [i|] eqn:Hd.
  - rewrite (GetDBByDatabaseName_hit _ _ _ _ Hd) in H. now injection H as _ <-.
  - destruct (lock s) eqn:Hl.
    { now rewrite (GetDBByDatabaseName_blocked _ _ _ Hd Hl) in H. }
    destruct (GetDBByDatabaseName_miss _ _ _ Hd Hl) as (o1 & s1 & Hg & Hm).
    rewrite Hg in H.
    assert (s1 = s') as <- by (destruct o1 as [[?|]|]; now injection H).
    destruct Hm; simpl; auto.
    destruct (decide (k = dbKeyOf database serviceName)) as [-> | Hne].
    + congruence.
    + now rewrite lookup_insert_ne.
Qed.

Lemma calls_keep_entries cs :
  forall s s' k info,
    calls G cs s = Some s' ->
    dbRegister s !! k = Some info -> dbRegister s' !! k = Some info.
Proof.
  induction cs as [| [sn conf | d sn] rest IH]; intros s s' k info H Hk;
    simpl in H.
  - now injection H as <-.
  - eapply IH; [exact H |]. exact Hk.
  - destruct (GetDB G d sn s) as [[o s1]|] eqn:Hg; [| discriminate].
    eapply IH; [exact H |]. eapply GetDB_keeps_entries; eauto.
Qed.

(** A request that returns hands out the connection of the entry that is
    registered under its key from then on. *)
Lemma GetDB_returns database serviceName s c s' :
  GetDB G database serviceName s = Some (Ret c, s') ->
  exists info, dbRegister s' !! dbKeyOf database serviceName = Some info /\
               Conn info = c.
Proof.
  intros H. unfold GetDB in H.
  destruct (dbRegister s !! dbKeyOf database serviceName) as [i|] eqn:Hd.
  - rewrite (GetDBByDatabaseName_hit _ _ _ _ Hd) in H.
    injection H as <- <-. eauto.
  - destruct (lock s) eqn:Hl.
    { now rewrite (GetDBByDatabaseName_blocked _ _ _ Hd Hl) in H. }
    destruct (GetDBByDatabaseName_miss _ _ _ Hd Hl) as (o1 & s1 & Hg & Hm).
    rewrite Hg in H.
    destruct Hm; try discriminate.
    injection H as <- <-. simpl. rewrite lookup_insert_eq. eauto.
Qed.

Lemma sound_initial : sound G initial.
Proof.
  split; [reflexivity |]. split.
  - intros k info H. unfold initial in H. simpl in H.
    rewrite lookup_empty in H. discriminate.
  - intros k1 k2 i1 i2 H. unfold initial in H. simpl in H.
    rewrite lookup_empty in H. discriminate.
Qed.

Lemma sound_SetServiceDBConfig serviceName dbConf s :
  sound G s -> sound G (SetServiceDBConfig serviceName dbConf s).
Proof. intros (Hl & He & Hd). split; [| split]; assumption. Qed.

Lemma sound_GetDB database serviceName s o s' :
  sound G s -> GetDB G database serviceName s = Some (o, s') -> sound G s'.
Proof.
  intros (Hl & He & Hd) H. unfold GetDB in H.
  destruct (dbRegister s !! dbKeyOf database serviceName) as [i|] eqn:Hk.
  { rewrite (GetDBByDatabaseName_hit _ _ _ _ Hk) in H. injection H as _ <-.
    split; [| split]; assumption. }
  destruct (GetDBByDatabaseName_miss _ _ _ Hk Hl) as (o1 & s1 & Hg & Hm).
  rewrite Hg in H.
  assert (s1 = s') as <- by (destruct o1 as [[?|]|]; now injection H).
  clear H.
  assert (forall x k info,
            dbRegister s !! k = Some info ->
            exists n dbConf,
              Conn info = Some (RawConn n) /\
              DbConfig info = Some dbConf /\
              (opens s ++ [x]) !! n = Some (Dialect dbConf, Dsn dbConf) /\
              OpenError G n (Dialect dbConf) (Dsn dbConf) = None) as He'.
  { intros x k info Hi. destruct (He k info Hi) as (n & c & H1 & H2 & H3 & H4).
    exists n, c. repeat split; auto. now apply lookup_app_l_Some. }
  destruct Hm as [Hc | Hc | dbConf e Hc Ho | dbConf Hc Ho].
  - split; [| split]; assumption.
  - split; [| split]; assumption.
  - split; [reflexivity |]. split; [apply He' | exact Hd].
  - split; [reflexivity |]. simpl. split.
    + intros k info.
      destruct (decide (k = dbKeyOf database serviceName)) as [-> | Hne].
      * rewrite lookup_insert_eq. intros [= <-]. simpl.
        exists (length (opens s)), dbConf. repeat split; auto.
        rewrite lookup_app_r by lia. now rewrite Nat.sub_diag.
      * rewrite lookup_insert_ne by auto. apply He'.
    + assert (forall k info,
                dbRegister s !! k = Some info ->
                Conn info <> Some (RawConn (length (opens s)))) as Hfresh.
      { intros k info Hi Heq.
        destruct (He k info Hi) as (n & c & H1 & _ & H3 & _).
        rewrite H1 in Heq. injection Heq as ->.
        apply lookup_lt_Some in H3. lia. }
      intros k1 k2 i1 i2.
      destruct (decide (k1 = dbKeyOf database serviceName)) as [-> | Hn1];
        destruct (decide (k2 = dbKeyOf database serviceName)) as [-> | Hn2];
        rewrite ?lookup_insert_eq, ?lookup_insert_ne by auto.
      * auto.
      * intros [= <-] H2 Heq. simpl in Heq. symmetry in Heq.
        now apply Hfresh in H2.
      * intros H1 [= <-] Heq. simpl in Heq. now apply Hfresh in H1.
      * apply Hd.
Qed.

Lemma sound_calls cs :
  forall s s', sound G s -> calls G cs s = Some s' -> sound G s'.
Proof.
  induction cs as [| [sn conf | d sn] rest IH]; intros s s' Hs H; simpl in H.
  - now injection H as <-.
  - eapply IH; [| exact H]. now apply sound_SetServiceDBConfig.
  - destruct (GetDB G d sn s) as [[o s1]|] eqn:Hg; [| discriminate].
    eapply IH; [| exact H]. eapply sound_GetDB; eauto.
Qed.

End DbRegistryFacts.

(** X12.  [GetDB] panics in three cases only, all on a key that is not
    registered: the service has no configuration (the panic carries the
    message of the source, and [gorm.Open] is not called), its
    configuration is a nil pointer (a nil dereference), or [gorm.Open]
    fails (the panic carries its error).  In each case nothing is
    registered, the configurations are as before and the lock is released:
    the failure is not cached. *)
Theorem GetDB_panics_leave_no_entry
  (G : DbRegistry.driver) (database serviceName : string)
  (s : DbRegistry.pkg) (r : panicval) (s' : DbRegistry.pkg) :
  DbRegistry.GetDB G database serviceName s = Some (Raise r, s') ->
  DbRegistry.dbRegister s !! DbRegistry.dbKeyOf database serviceName = None /\
  DbRegistry.dbRegister s' = DbRegistry.dbRegister s /\
  DbRegistry.ServiceConfigMap s' = DbRegistry.ServiceConfigMap s /\
  DbRegistry.lock s' = false /\
  ((DbRegistry.ServiceConfigMap s !! serviceName = None /\
    r = PanicValue "can not find service config, please set config first!!!" /\
    DbRegistry.opens s' = DbRegistry.opens s) \/
   (DbRegistry.ServiceConfigMap s !! serviceName = Some None /\
    r = nilDereference /\
    DbRegistry.opens s' = DbRegistry.opens s) \/
   (exists dbConf e,
       DbRegistry.ServiceConfigMap s !! serviceName = Some (Some dbConf) /\
       DbRegistry.OpenError G (length (DbRegistry.opens s))
         (DbRegistry.Dialect dbConf) (DbRegistry.Dsn dbConf) = Some e /\
       r = PanicError e /\
       DbRegistry.opens s' =
         DbRegistry.opens s ++
         [(DbRegistry.Dialect dbConf, DbRegistry.Dsn dbConf)])).
Proof.
  intros H. unfold DbRegistry.GetDB in H.
  destruct (DbRegistry.dbRegister s !! DbRegistry.dbKeyOf database serviceName)
    as [i|] eqn:Hk.
  { now rewrite (GetDBByDatabaseName_hit G _ _ _ _ Hk) in H. }
  destruct (DbRegistry.lock s) eqn:Hl.
  { now rewrite (GetDBByDatabaseName_blocked G _ _ _ Hk Hl) in H. }
  destruct (GetDBByDatabaseName_miss G _ _ _ Hk Hl) as (o1 & s1 & Hg & Hm).
  rewrite Hg in H.
  destruct Hm as [Hc | Hc | dbConf e Hc Ho | dbConf Hc Ho];
    try discriminate; injection H as <- <-; simpl.
  - do 4 (split; [auto |]). left. auto.
  - do 4 (split; [auto |]). right. left. auto.
  - do 4 (split; [auto |]). right. right. exists dbConf, e. auto.
Qed.

Lemma GetDB_panics_leave_no_entry_witness :
  DbRegistry.dbRegister
    (snd (default (Ret None, configured)
            (DbRegistry.GetDB downDriver "primary" "orders" configured)))
  = DbRegistry.dbRegister configured /\
  DbRegistry.lock
    (snd (default (Ret None, configured)
            (DbRegistry.GetDB downDriver "primary" "orders" configured)))
  = false.
Proof.
  destruct (GetDB_panics_leave_no_entry downDriver "primary" "orders"
              configured (PanicError (ErrorsNew "connection refused"))
              (snd (default (Ret None, configured)
                      (DbRegistry.GetDB downDriver "primary" "orders"
                         configured)))
              eq_refl) as (_ & H1 & _ & H2 & _).
  exact (conj H1 H2).
Defined.

(** X13.  Once [GetDB] has returned a connection for a database of a
    service, every later request for the same pair returns that
    connection and changes nothing (no further [gorm.Open]), whatever was
    called in between: configurations set or replaced, other requests,
    requests that panicked. *)
Theorem GetDB_connection_is_kept
  (G : DbRegistry.driver) (database serviceName : string)
  (s : DbRegistry.pkg) (c : option DB) (s1 : DbRegistry.pkg)
  (cs : list DbRegistry.call) (s2 : DbRegistry.pkg) :
  DbRegistry.GetDB G database serviceName s = Some (Ret c, s1) ->
  DbRegistry.calls G cs s1 = Some s2 ->
  DbRegistry.GetDB G database serviceName s2 = Some (Ret c, s2).
Proof.
  intros H Hcs.
  destruct (GetDB_returns G _ _ _ _ _ H) as (info & Hk & <-).
  apply GetDB_hit.
  exact (calls_keep_entries G cs _ _ _ _ Hcs Hk).
Qed.

Lemma GetDB_connection_is_kept_witness :
  DbRegistry.GetDB upDriver "primary" "orders"
    (default configured
       (DbRegistry.calls upDriver
          [DbRegistry.CallSet "orders" None;
           DbRegistry.CallGet "replica" "orders";
           DbRegistry.CallGet "primary" "billing"]
          (snd (default (Ret None, configured)
                  (DbRegistry.GetDB upDriver "primary" "orders" configured)))))
  = Some (Ret (Some (RawConn 0)),
          default configured
            (DbRegistry.calls upDriver
               [DbRegistry.CallSet "orders" None;
                DbRegistry.CallGet "replica" "orders";
                DbRegistry.CallGet "primary" "billing"]
               (snd (default (Ret None, configured)
                       (DbRegistry.GetDB upDriver "primary" "orders"
                          configured))))).
Proof.
  apply (GetDB_connection_is_kept upDriver "primary" "orders" configured
           (Some (RawConn 0))
           (snd (default (Ret None, configured)
                   (DbRegistry.GetDB upDriver "primary" "orders" configured)))
           [DbRegistry.CallSet "orders" None;
            DbRegistry.CallGet "replica" "orders";
            DbRegistry.CallGet "primary" "billing"]);
    vm_compute; reflexivity.
Defined.

(** X14.  In a package driven from its initial state by calls to
    [SetServiceDBConfig] and [GetDB] alone, a request that returns never
    returns nil: it returns a connection that a successful [gorm.Open]
    gave, and two requests are given the same connection only if they have
    the same key (serviceName # database). *)
Theorem GetDB_returns_own_connection
  (G : DbRegistry.driver) (cs : list DbRegistry.call) (s : DbRegistry.pkg)
  (database1 serviceName1 database2 serviceName2 : string)
  (c1 c2 : option DB) (s1 s2 : DbRegistry.pkg) :
  DbRegistry.calls G cs DbRegistry.initial = Some s ->
  DbRegistry.GetDB G database1 serviceName1 s = Some (Ret c1, s1) ->
  DbRegistry.GetDB G database2 serviceName2 s1 = Some (Ret c2, s2) ->
  (exists n dialect dsn,
      c1 = Some (RawConn n) /\
      DbRegistry.opens s1 !! n = Some (dialect, dsn) /\
      DbRegistry.OpenError G n dialect dsn = None) /\
  (c1 = c2 ->
   DbRegistry.dbKeyOf database1 serviceName1
   = DbRegistry.dbKeyOf database2 serviceName2).
Proof.
  intros Hcs H1 H2.
  pose proof (sound_calls G cs _ _ (sound_initial G) Hcs) as Hs.
  pose proof (sound_GetDB G _ _ _ _ _ Hs H1) as Hs1.
  pose proof (sound_GetDB G _ _ _ _ _ Hs1 H2) as (_ & _ & Hd2).
  destruct (GetDB_returns G _ _ _ _ _ H1) as (i1 & Hk1 & <-).
  destruct (GetDB_returns G _ _ _ _ _ H2) as (i2 & Hk2 & <-).
  split.
  - destruct Hs1 as (_ & He1 & _).
    destruct (He1 _ _ Hk1) as (n & dbConf & Hc & _ & Ho & Hok). eauto 7.
  - intros Heq. eapply Hd2; [| exact Hk2 | exact Heq].
    eapply GetDB_keeps_entries; eauto.
Qed.

Lemma GetDB_returns_own_connection_witness :
  (exists n dialect dsn,
      Some (RawConn 0) = Some (RawConn n) /\
      DbRegistry.opens
        (snd (default (Ret None, configured)
                (DbRegistry.GetDB upDriver "primary" "orders" configured)))
      !! n = Some (dialect, dsn) /\
      DbRegistry.OpenError upDriver n dialect dsn = None) /\
  (Some (RawConn 0) = Some (RawConn 1) ->
   DbRegistry.dbKeyOf "primary" "orders"
   = DbRegistry.dbKeyOf "replica" "orders").
Proof.
  apply (GetDB_returns_own_connection upDriver
           [DbRegistry.CallSet "orders" (Some ordersConfig)] configured
           "primary" "orders" "replica" "orders"
           (Some (RawConn 0)) (Some (RawConn 1))
           (snd (default (Ret None, configured)
                   (DbRegistry.GetDB upDriver "primary" "orders" configured)))
           (snd (default (Ret None, configured)
                   (DbRegistry.GetDB upDriver "replica" "orders"
                      (snd (default (Ret None, configured)
                              (DbRegistry.GetDB upDriver "primary" "orders"
                                 configured)))))));
    vm_compute; reflexivity.
Defined.

(** X15.  The database name only picks the slot of the registry: the
    first requests for two databases of one service open two connections,
    both with the one dialect and dsn configured for the service. *)
Theorem GetDB_one_dsn_per_service
  (G : DbRegistry.driver) (database1 database2 serviceName : string)
  (dbConf : DbRegistry.DBConfig) (s : DbRegistry.pkg) :
  DbRegistry.lock s = false ->
  DbRegistry.dbRegister s !! DbRegistry.dbKeyOf database1 serviceName = None ->
  DbRegistry.dbRegister s !! DbRegistry.dbKeyOf database2 serviceName = None ->
  database1 <> database2 ->
  DbRegistry.ServiceConfigMap s !! serviceName = Some (Some dbConf) ->
  (forall n, DbRegistry.OpenError G n (DbRegistry.Dialect dbConf)
               (DbRegistry.Dsn dbConf) = None) ->
  exists s1 s2,
    DbRegistry.GetDB G database1 serviceName s
    = Some (Ret (Some (RawConn (length (DbRegistry.opens s)))), s1) /\
    DbRegistry.GetDB G database2 serviceName s1
    = Some (Ret (Some (RawConn (S (length (DbRegistry.opens s))))), s2) /\
    DbRegistry.opens s2 =
      DbRegistry.opens s ++
      [(DbRegistry.Dialect dbConf, DbRegistry.Dsn dbConf);
       (DbRegistry.Dialect dbConf, DbRegistry.Dsn dbConf)].
Proof.
  intros Hl Hk1 Hk2 Hne Hc Ho.
  destruct (GetDBByDatabaseName_miss G _ _ _ Hk1 Hl) as (o1 & s1 & Hg1 & Hm1).
  destruct Hm1 as [Hc' | Hc' | c e Hc' Ho' | c Hc' Ho']; try congruence.
  rewrite Hc in Hc'. injection Hc' as <-.
  set (s1 := DbRegistry.mkPkg _ _ _ _) in Hg1.
  assert (DbRegistry.dbRegister s1
            !! DbRegistry.dbKeyOf database2 serviceName = None) as Hk2'.
  { unfold s1. simpl. rewrite lookup_insert_ne; [assumption |].
    intros Heq. apply dbKeyOf_inj in Heq. auto. }
  destruct (GetDBByDatabaseName_miss G _ _ _ Hk2' eq_refl)
    as (o2 & s2 & Hg2 & Hm2).
  destruct Hm2 as [Hc' | Hc' | c e Hc' Ho'' | c Hc' Ho''];
    try (unfold s1 in Hc'; simpl in Hc'; congruence).
  unfold s1 in Hc'. simpl in Hc'. rewrite Hc in Hc'. injection Hc' as <-.
  eexists _, _. unfold DbRegistry.GetDB. rewrite Hg1. simpl.
  split; [reflexivity |]. rewrite Hg2. simpl.
  split.
  - unfold s1. simpl. rewrite length_app. simpl.
    now rewrite Nat.add_1_r.
  - unfold s1. simpl. now rewrite <- app_assoc.
Qed.

Lemma GetDB_one_dsn_per_service_witness :
  exists s1 s2,
    DbRegistry.GetDB upDriver "primary" "orders" configured
    = Some (Ret (Some (RawConn (length (DbRegistry.opens configured)))), s1) /\
    DbRegistry.GetDB upDriver "replica" "orders" s1
    = Some (Ret (Some (RawConn (S (length (DbRegistry.opens configured))))),
            s2) /\
    DbRegistry.opens s2 =
      DbRegistry.opens configured ++
      [(DbRegistry.Dialect ordersConfig, DbRegistry.Dsn ordersConfig);
       (DbRegistry.Dialect ordersConfig, DbRegistry.Dsn ordersConfig)].
Proof.
  apply (GetDB_one_dsn_per_service upDriver "primary" "replica" "orders"
           ordersConfig configured).
  - reflexivity.
  - vm_compute. reflexivity.
  - vm_compute. reflexivity.
  - discriminate.
  - vm_compute. reflexivity.
  - intros n. reflexivity.
Defined.

(** ** Conditions: flattening to a WHERE clause *)

Section ConditionFacts.

Import Conditions.

Context {val : Type}.

Implicit Types (c : @Condition val) (cs : list (@Condition val)).

Lemma Condition_induction (P : @Condition val -> Prop) :
  P Nil ->
  (forall f op a1 a2 r1 r2, P (singleCondition f op a1 a2 r1 r2)) ->
  (forall c1 c2 l, P c1 -> P c2 -> P (compoundCondition c1 c2 l)) ->
  (forall cs l, Forall P cs -> P (conditionGroup cs l)) ->
  forall c, P c.
Proof.
  intros HNil HS HC HG. fix IH 1.
  intros [| f op a1 a2 r1 r2 | c1 c2 l | cs l].
  - exact HNil.
  - apply HS.
  - apply HC; apply IH.
  - apply HG. revert cs. fix IHcs 1. intros [| c cs].
    + constructor.
    + constructor; [apply IH | apply IHcs].
Qed.

Lemma append_cons (x : ascii) (a b : string) :
  (String x a ++ b)%string = String x (a ++ b)%string.
Proof. reflexivity. Qed.

Lemma append_nonempty (a b : string) :
  b <> EmptyString -> (a ++ b)%string <> EmptyString.
Proof. destruct a; [auto | rewrite append_cons; discriminate]. Qed.

Lemma placeholders_app (a b : string) :
  placeholders (a ++ b)%string = placeholders a + placeholders b.
Proof.
  induction a as [|x a IH]; [reflexivity |].
  rewrite append_cons. simpl. rewrite IH. lia.
Qed.

Lemma placeholders_Join (sqls : list string) (sep : string) :
  placeholders sep = 0 ->
  placeholders (Join sqls sep) = list_sum (map placeholders sqls).
Proof.
  intros Hsep. induction sqls as [| x [| y rest] IH].
  - reflexivity.
  - simpl. lia.
  - change (Join (x :: y :: rest) sep)
      with (x ++ sep ++ Join (y :: rest) sep)%string.
    rewrite !placeholders_app, Hsep, IH. reflexivity.
Qed.

Lemma Join_empty (sqls : list string) (sep : string) :
  Forall (fun s => s <> EmptyString) sqls ->
  Join sqls sep = EmptyString -> sqls = [].
Proof.
  intros Hne H. destruct Hne as [| x rest Hx Hrest]; [reflexivity |].
  exfalso. destruct rest as [| y rest]; [now apply Hx |].
  change (Join (x :: y :: rest) sep)
    with (x ++ sep ++ Join (y :: rest) sep)%string in H.
  destruct x; [now apply Hx |]. rewrite append_cons in H. discriminate.
Qed.

Lemma operators_placeholders (op : operator) (a1 a2 : option val) :
  existsb (String.eqb op) operators = true ->
  placeholders op = length (argsOf op a1 a2).
Proof.
  intros H. apply existsb_exists in H as (x & Hin & Heq).
  apply String.eqb_eq in Heq. subst x. unfold operators in Hin. simpl in Hin.
  repeat (destruct Hin as [<- | Hin]; [reflexivity |]).
  destruct Hin.
Qed.

Lemma connective_placeholders (l : logic) :
  connective l = true -> placeholders l = 0.
Proof.
  unfold connective. intros H.
  apply orb_prop in H as [H | H]; apply String.eqb_eq in H; now subst.
Qed.

(** The clause of a child as the loop of a group keeps it. *)
Lemma placeholders_parenthesised (b : bool) (s : string) :
  placeholders (if b then s else ("(" ++ s ++ ")")%string) = placeholders s.
Proof.
  destruct b; [reflexivity |]. rewrite !placeholders_app. simpl. lia.
Qed.

Lemma flatten_group cs l :
  flatten (conditionGroup cs l) =
    match flattenEach flatten cs with
    | Raise r => Raise r
    | Ret (sqls, args) => Ret (Join sqls (" " ++ l ++ " ")%string, args)
    end.
Proof. reflexivity. Qed.

Lemma flattenEach_cons (c : @Condition val) cs :
  flattenEach flatten (c :: cs) =
    match flatten c with
    | Raise r => Raise r
    | Ret (s, a) =>
        match flattenEach flatten cs with
        | Raise r => Raise r
        | Ret (sqls, args) =>
            if String.eqb s "" then Ret (sqls, args)
            else Ret ((if isSingle c then s
                       else ("(" ++ s ++ ")")%string) :: sqls,
                      a ++ args)
        end
    end.
Proof. reflexivity. Qed.

Lemma wellFormed_flatten c :
  wellFormed c = true ->
  exists sql args,
    flatten c = Ret (sql, args) /\ placeholders sql = length args.
Proof.
  induction c as [| f op a1 a2 r1 r2 | c1 c2 l IH1 IH2 | cs l IH]
    using Condition_induction; intros Hwf.
  - discriminate.
  - simpl in Hwf. apply andb_prop in Hwf as [Hop Hcol].
    simpl. destruct (Column f) as [col | r]; [| discriminate].
    apply Nat.eqb_eq in Hcol.
    eexists _, _. split; [reflexivity |].
    rewrite !placeholders_app, Hcol. simpl.
    now apply operators_placeholders.
  - simpl in Hwf. apply andb_prop in Hwf as [Hwf Hl].
    apply andb_prop in Hwf as [H1 H2].
    destruct (IH1 H1) as (sql1 & args1 & Hf1 & Hp1).
    destruct (IH2 H2) as (sql2 & args2 & Hf2 & Hp2).
    simpl. rewrite Hf1, Hf2.
    destruct (String.eqb sql1 ""); [eauto |].
    destruct (String.eqb sql2 ""); [eauto |].
    eexists _, _. split; [reflexivity |].
    rewrite !placeholders_app, (connective_placeholders _ Hl), length_app.
    simpl. lia.
  - simpl in Hwf. apply andb_prop in Hwf as [Hcs Hl].
    assert (exists sqls args,
               flattenEach flatten cs = Ret (sqls, args) /\
               list_sum (map placeholders sqls) = length args)
      as (sqls & args & He & Hp).
    { clear Hl. induction IH as [| c cs Hc _ IHcs].
      - exists [], []. auto.
      - simpl in Hcs. apply andb_prop in Hcs as [Hc1 Hcs].
        destruct (Hc Hc1) as (s & a & Hf & Hpa).
        destruct (IHcs Hcs) as (sqls & args & He & Hp).
        rewrite flattenEach_cons, Hf, He.
        destruct (String.eqb s ""); [eauto |].
        eexists _, _. split; [reflexivity |].
        simpl. rewrite placeholders_parenthesised, length_app. lia. }
    rewrite flatten_group, He. eexists _, _. split; [reflexivity |].
    rewrite placeholders_Join; [assumption |].
    rewrite !placeholders_app, (connective_placeholders _ Hl). reflexivity.
Qed.

Lemma flatten_leafArgs c :
  forall sql args,
    flatten c = Ret (sql, args) ->
    args = leafArgs c /\ (sql = EmptyString -> args = []).
Proof.
  induction c as [| f op a1 a2 r1 r2 | c1 c2 l IH1 IH2 | cs l IH]
    using Condition_induction; intros sql args H.
  - discriminate.
  - simpl in H. destruct (Column f) as [col | r]; [| discriminate].
    injection H as <- <-. split; [reflexivity |].
    intros Hsql. now apply append_nonempty in Hsql.
  - simpl in H.
    destruct (flatten c1) as [[sql1 args1] | r]; [| discriminate].
    destruct (flatten c2) as [[sql2 args2] | r]; [| discriminate].
    destruct (IH1 _ _ eq_refl) as [-> HE1].
    destruct (IH2 _ _ eq_refl) as [-> HE2].
    simpl. destruct (String.eqb_spec sql1 "") as [-> | Hn1].
    { injection H as <- <-. rewrite (HE1 eq_refl). auto. }
    destruct (String.eqb_spec sql2 "") as [-> | Hn2].
    { injection H as <- <-. rewrite (HE2 eq_refl), app_nil_r. auto. }
    injection H as <- <-. split; [reflexivity |].
    rewrite append_cons. discriminate.
  - rewrite flatten_group in H.
    destruct (flattenEach flatten cs) as [[sqls args'] | r] eqn:He;
      [| discriminate].
    injection H as <- <-.
    assert (args' = flat_map leafArgs cs /\
            Forall (fun s => s <> EmptyString) sqls /\
            (sqls = [] -> args' = [])) as (Ha & Hne & Hnil).
    { clear l. revert sqls args' He.
      induction IH as [| c cs Hc _ IHcs]; intros sqls args' He.
      - injection He as <- <-. auto.
      - rewrite flattenEach_cons in He.
        destruct (flatten c) as [[s a] | r]; [| discriminate].
        destruct (flattenEach flatten cs) as [[sqls0 args0] | r];
          [| discriminate].
        destruct (Hc _ _ eq_refl) as [-> HE].
        destruct (IHcs _ _ eq_refl) as (-> & Hne0 & Hnil0).
        simpl. destruct (String.eqb_spec s "") as [-> | Hn].
        + injection He as <- <-. rewrite (HE eq_refl). auto.
        + injection He as <- <-. split; [reflexivity |].
          split; [| discriminate]. constructor; [| assumption].
          destruct (isSingle c); [assumption |].
          rewrite append_cons. discriminate. }
    split; [exact Ha |]. intros HJ.
    apply Hnil. eapply Join_empty; eauto.
Qed.

(** What the builders of [SimpleField] return is well formed, on a column
    without a question mark. *)
Lemma builders_wellFormed (strVal : string -> val)
  (IsArray : option val -> outcome bool) (asArray : option val -> option val)
  (s : SimpleField) (v v' : option val) (t : string) :
  placeholders s = 0 ->
  Forall (fun c => wellFormed c = true)
    [Eq s v; NotEq s v; IsNull s; NotNull s; Empty s; Lt s v; Lte s v;
     Gt s v; Gte s v; Between s v v'; Like strVal s t; ILike strVal s t;
     StartsWith strVal s t; IStartsWith strVal s t; Contains strVal s t;
     IContains strVal s t; NotLike strVal s t; NotILike strVal s t] /\
  (forall c, In IsArray s v = Ret c \/ NotIn IsArray s v = Ret c \/
             ArrayMatchAny IsArray asArray s v = Ret c ->
             wellFormed c = true).
Proof.
  intros Hs. split.
  - repeat constructor; simpl; now rewrite Hs.
  - unfold In, NotIn, ArrayMatchAny, arrayCondition.
    intros c H. destruct (IsArray v) as [[|] | r];
      destruct H as [H | [H | H]]; try discriminate;
      injection H as <-; simpl; now rewrite Hs.
Qed.

End ConditionFacts.

(** X16.  A condition made of the operators and connectives of the
    package, on columns whose names hold no question mark, flattens
    without a panic, and the clause has exactly as many placeholders as
    there are arguments beside it. *)
Theorem flatten_placeholders_match_arguments
  {val : Type} (c : @Conditions.Condition val) :
  Conditions.wellFormed c = true ->
  exists sql args,
    Conditions.flatten c = Ret (sql, args) /\
    Conditions.placeholders sql = length args.
Proof. apply wellFormed_flatten. Qed.

Lemma flatten_placeholders_match_arguments_witness :
  exists sql args,
    Conditions.flatten openOrders = Ret (sql, args) /\
    Conditions.placeholders sql = length args.
Proof.
  apply (flatten_placeholders_match_arguments openOrders). reflexivity.
Defined.

(** X17.  Flattening loses no argument: whatever sub-conditions are
    skipped for an empty clause, the arguments returned are those of all
    the leaves, from left to right; and an empty clause (for which the
    caller adds no WHERE) comes with no argument. *)
Theorem flatten_keeps_every_argument
  {val : Type} (c : @Conditions.Condition val)
  (sql : string) (args : list (option val)) :
  Conditions.flatten c = Ret (sql, args) ->
  args = Conditions.leafArgs c /\ (sql = EmptyString -> args = []).
Proof. apply flatten_leafArgs. Qed.

Lemma flatten_keeps_every_argument_witness :
  [Some "open"; Some "10"; Some "20"; Some "a%"]
  = Conditions.leafArgs openOrders /\
  ("status =? AND (total BETWEEN ? AND ? OR coupon IS NULL) AND customer LIKE ?"
   = EmptyString ->
   [Some "open"; Some "10"; Some "20"; Some "a%"] = []).
Proof.
  apply (flatten_keeps_every_argument openOrders
           "status =? AND (total BETWEEN ? AND ? OR coupon IS NULL) AND customer LIKE ?"
           [Some "open"; Some "10"; Some "20"; Some "a%"]).
  reflexivity.
Defined.

(** X18.  A group without conditions is neutral: joined with [And] or
    [Or] to a condition, on either side, it leaves the clause, the
    arguments and the panics of that condition as they are.  ([And] and
    [Or] themselves panic on the nil condition only.) *)
Theorem empty_group_is_neutral
  {val : Type} (c : @Conditions.Condition val) :
  match Conditions.And c (Conditions.MatchAll []) with
  | Ret cc => Conditions.flatten cc = Conditions.flatten c
  | Raise _ => c = Conditions.Nil
  end /\
  match Conditions.Or c (Conditions.MatchAny []) with
  | Ret cc => Conditions.flatten cc = Conditions.flatten c
  | Raise _ => c = Conditions.Nil
  end /\
  match Conditions.And (Conditions.MatchAll []) c with
  | Ret cc => Conditions.flatten cc = Conditions.flatten c
  | Raise _ => False
  end /\
  match Conditions.Or (Conditions.MatchAny []) c with
  | Ret cc => Conditions.flatten cc = Conditions.flatten c
  | Raise _ => False
  end.
Proof.
  assert (forall l l',
            Conditions.flatten
              (Conditions.compoundCondition c (Conditions.conditionGroup [] l') l)
            = Conditions.flatten c) as Hright.
  { intros l l'. simpl.
    destruct (Conditions.flatten c) as [[sql args] | r] eqn:Hf; [| reflexivity].
    destruct (String.eqb_spec sql "") as [-> | Hn]; [| reflexivity].
    destruct (flatten_leafArgs c _ _ Hf) as [_ HE].
    now rewrite (HE eq_refl). }
  assert (forall l l',
            Conditions.flatten
              (Conditions.compoundCondition (Conditions.conditionGroup [] l') c l)
            = Conditions.flatten c) as Hleft.
  { intros l l'. simpl.
    destruct (Conditions.flatten c) as [[sql args] | r]; reflexivity. }
  split; [| split; [| split]].
  - destruct c; [reflexivity | exact (Hright _ _) ..].
  - destruct c; [reflexivity | exact (Hright _ _) ..].
  - exact (Hleft _ _).
  - exact (Hleft _ _).
Qed.

(** ** Wrappers are reset or hold an open transaction *)

Section Settled.

Variable E : connLayer.

Implicit Types (s : state) (w : nat) (cb : callback).

Lemma settled_same_heap s s' : heap s' = heap s -> settled s -> settled s'.
Proof. unfold settled. now intros ->. Qed.

Lemma settled_updWrapper f w s :
  (forall wr, heap s !! w = Some wr -> emptyOrOpen (f wr)) ->
  settled s -> settled (updWrapper f w s).
Proof.
  intros Hf Hs w0 wr0. unfold updWrapper. simpl.
  destruct (decide (w = w0)) as [<- | Hne].
  - rewrite list_lookup_alter_eq.
    destruct (heap s !! w) as [wr|] eqn:Hw; simpl; [| discriminate].
    intros [= <-]. auto.
  - rewrite list_lookup_alter_ne by assumption. apply Hs.
Qed.

Lemma settled_withErr s w tx e :
  holdsTx s w tx -> settled s -> settled (updWrapper (withErr e) w s).
Proof.
  intros [Hd Hi] Hs. apply settled_updWrapper; [| assumption].
  intros wr Hw. rewrite (deref_lookup _ _ _ Hw) in Hd, Hi.
  right. exists tx. auto.
Qed.

Lemma settled_reset s w : settled s -> settled (reset w s).
Proof.
  intros Hs. apply settled_updWrapper; [| assumption]. intros wr _. now left.
Qed.

Lemma settled_logIfError e msg s : settled s -> settled (logIfError e msg s).
Proof. destruct e; auto. Qed.

Lemma settled_recordBizErr s w tx be :
  holdsTx s w tx -> settled s -> settled (recordBizErr w be s).
Proof.
  intros Htx Hs. destruct be as [e|]; simpl; [| assumption].
  eapply settled_same_heap; [| eapply settled_withErr; eassumption].
  reflexivity.
Qed.

Lemma settled_panicNoted s w tx r :
  holdsTx s w tx -> settled s -> settled (panicNoted w r s).
Proof.
  intros Htx Hs. unfold panicNoted.
  eapply settled_withErr.
  - eapply holdsTx_same_heap; [| exact Htx]. reflexivity.
  - eapply settled_same_heap; [| exact Hs]. reflexivity.
Qed.

(** After a resolution or a recovery by the owner: one more event, maybe
    one more log line, and the wrapper reset. *)
Lemma settled_resolved s w ev e msg :
  settled s -> settled (reset w (logIfError e msg (emit ev s))).
Proof.
  intros Hs. apply settled_reset, settled_logIfError.
  eapply settled_same_heap; [| exact Hs]. reflexivity.
Qed.

Lemma entered_settled tm ctx s ctx' w own s1 :
  entered E tm ctx s ctx' w own s1 -> settled s -> settled s1.
Proof.
  intros H Hs. destruct H as [d Ha Hd | p d Ha Hp Hi | p d Ha Hp Hi].
  - intros w0 wr0. simpl. intros Hw.
    apply lookup_app_Some in Hw as [Hw | [_ Hw]]; [eauto |].
    apply list_lookup_singleton_Some in Hw as [_ <-].
    right. eexists. simpl. eauto.
  - intros w0 wr0. simpl.
    destruct (decide (p = w0)) as [<- | Hne].
    + rewrite list_lookup_alter_eq.
      destruct (heap s !! p) as [wr|]; simpl; [| discriminate].
      intros [= <-]. right. eexists. simpl. eauto.
    + rewrite list_lookup_alter_ne by assumption. apply Hs.
  - assumption.
Qed.

(** On a settled state no transaction is begun on the handle of a wrapper
    that exists: a call that opens one allocates its wrapper. *)
Lemma entered_settled_owner tm ctx s ctx' w s1 :
  entered E tm ctx s ctx' w true s1 -> settled s ->
  w = length (heap s) /\ ctx' = setDbWrapper tm ctx w.
Proof.
  intros H Hs. inversion H as [d Ha Hd | p d Ha Hp Hi |]; subst; [auto |].
  exfalso. apply ambient_Some in Ha as [_ Hdb].
  destruct (Hs _ _ (deref_db_lookup _ _ _ Hdb)) as [Hw | (tx & _ & Hopen)].
  - rewrite Hw in Hdb. discriminate.
  - congruence.
Qed.

Lemma settled_Transaction tm cb :
  keepsOpenTx cb ->
  (forall ctx, preserves settled (cb ctx)) ->
  forall ctx, preserves settled (Transaction E tm ctx cb).
Proof.
  intros Hk Hcb ctx s o s' H Hs.
  destruct (enter E tm ctx s) as [[res e | ctx' w own] s1] eqn:He.
  { unfold Transaction in H. rewrite He in H. injection H as <- <-.
    apply enter_EarlyReturn in He as ->. assumption. }
  apply enter_Proceed in He.
  rewrite (Transaction_entered _ _ _ _ _ _ _ _ _ He) in H.
  destruct (entered_holds _ _ _ _ _ _ _ _ He) as [(tx & Htx & _) _].
  pose proof (entered_settled _ _ _ _ _ _ _ He Hs) as Hs1.
  unfold recovering in H.
  destruct (Err ctx' (canceled s1)) as [e|] eqn:Hc.
  { rewrite (body_canceled _ _ _ _ _ _ _ Hc) in H. now injection H as <- <-. }
  destruct (cb ctx' s1) as [[[rd be] | r] s2] eqn:Hrun.
  - pose proof (Hk ctx' w tx s1 _ _ Hrun Htx) as Htx2.
    pose proof (Hcb ctx' s1 _ _ Hrun Hs1) as Hs2.
    pose proof (settled_recordBizErr _ _ _ be Htx2 Hs2) as Hs3.
    pose proof (holdsTx_recordBizErr _ w _ _ be Htx2) as Htx3.
    rewrite (body_returns _ _ _ _ _ _ _ _ _ Hc Hrun) in H.
    destruct (Err ctx' (canceled s2)); [now injection H as <- <- |].
    destruct own; [| now injection H as <- <-].
    destruct be as [e|].
    + rewrite (resolve_business_error _ _ _ _ _ _ Htx3) in H.
      injection H as <- <-. now apply settled_resolved.
    + destruct (err (deref (recordBizErr w None s2) w)) as [e|] eqn:Hse.
      * rewrite (resolve_sticky_error _ _ _ _ _ _ Htx3 Hse) in H.
        injection H as <- <-. apply settled_resolved.
        eapply settled_same_heap; [| exact Hs3]. reflexivity.
      * rewrite (resolve_commit _ _ _ _ _ Htx3 Hse) in H.
        injection H as <- <-. now apply settled_resolved.
  - pose proof (Hk ctx' w tx s1 _ _ Hrun Htx) as Htx2.
    pose proof (Hcb ctx' s1 _ _ Hrun Hs1) as Hs2.
    rewrite (body_panics _ _ _ _ _ _ _ _ Hc Hrun) in H.
    pose proof (settled_panicNoted _ _ _ r Htx2 Hs2) as Hs3.
    destruct own.
    + rewrite (recovered_owner _ _ _ _ _ Htx2) in H.
      injection H as <- <-. now apply settled_resolved.
    + rewrite recovered_joined in H. now injection H as <- <-.
Qed.

Lemma settled_run (u : uow) : forall ctx, preserves settled (run E u ctx).
Proof.
  induction u as [res e | r | tm c child IHchild k IHk | tm c k IHk | tok e k IHk];
    intros ctx; simpl.
  - apply preserves_ret.
  - apply preserves_raise.
  - apply preserves_bind.
    + apply (settled_Transaction tm _ (keepsOpenTx_run E child) IHchild).
    + intros r. apply IHk.
  - apply preserves_bind.
    + intros s o s' H Hs. unfold GetDb in H.
      destruct (ambient tm (c ctx) s) as [[? ?]|]; injection H as <- <-; auto.
    + intros a. apply IHk.
  - apply preserves_bind.
    + apply preserves_modify. intros s Hs.
      eapply settled_same_heap; [| exact Hs]. reflexivity.
    + intros _. apply IHk.
Qed.

End Settled.

(** X19.  A unit of work run on a state in which every wrapper is either
    reset (no handle, no open transaction, no error) or holds a handle
    with its transaction open leaves a state of that kind, however it
    ends.  On such a state the branch that begins a transaction on the
    handle of a wrapper found in the context is not taken: a call that
    opens a transaction allocates its wrapper and derives its context. *)
Theorem wrappers_stay_reset_or_open
  (E : connLayer) (u : uow) (ctx : context) (s : state)
  (o : outcome result) (s' : state) :
  settled s ->
  run E u ctx s = (o, s') ->
  settled s' /\
  (forall tm c ctx' w s1,
      enter E tm c s' = (Proceed ctx' w true, s1) ->
      w = length (heap s') /\ ctx' = setDbWrapper tm c w).
Proof.
  intros Hs Hrun.
  pose proof (settled_run E u ctx s o s' Hrun Hs) as Hs'.
  split; [exact Hs' |].
  intros tm c ctx' w s1 He. apply enter_Proceed in He.
  eapply entered_settled_owner; eauto.
Qed.

Lemma wrappers_stay_reset_or_open_witness :
  settled (snd (run poolConn swallowsThenCanceled requestCtx idle)) /\
  (forall tm c ctx' w s1,
      enter poolConn tm c (snd (run poolConn swallowsThenCanceled requestCtx idle))
      = (Proceed ctx' w true, s1) ->
      w = length (heap (snd (run poolConn swallowsThenCanceled requestCtx idle)))
      /\ ctx' = setDbWrapper tm c w).
Proof.
  apply (wrappers_stay_reset_or_open poolConn swallowsThenCanceled requestCtx
           idle
           (fst (run poolConn swallowsThenCanceled requestCtx idle))
           (snd (run poolConn swallowsThenCanceled requestCtx idle))).
  - intros w wr H. discriminate H.
  - reflexivity.
Defined.
